(** * hodr-accessibility-bot: the scenario execution engine

    A shallow embedding of the scenario driver (the multi-assertion driver
    [runScenario]/[main] and the earlier single-assertion driver of
    [src/server.js]), followed by the properties established about it.

    Conventions of the embedding:
    - JavaScript strings are [string]s, one [ascii] per character: the
      texts are ASCII;
    - values produced by [JSON.parse] are the inductive [value]; a number is
      carried by its canonical decimal rendering (what [String(n)] and
      [JSON.stringify(n)] print), so that strict equality of numbers is
      equality of the carried strings;
    - an object is an association list in property-enumeration order; where
      the code reads a table of the program by a key that the model or the
      scenario chooses ([roleMap[role]], [steps[step]]), the lookup also
      reaches the members every object inherits from [Object.prototype];
    - [undefined] is [None] at an [option] type;
    - the browser page, the remote model and [JSON.parse] live behind the
      record [Env]; every call across that boundary is recorded in a trace. *)

From Stdlib Require Import ZArith String Ascii List Bool Lia DecimalString.
From stdpp Require Import base option strings gmap list.

Local Open Scope string_scope.
Local Open Scope list_scope.

Set Warnings "-register-all".

(* String concatenation unfolds on a constructor, as list concatenation does. *)
#[local] Arguments String.append !s1 s2 / : simpl nomatch.

(* ------------------------------------------------------------------ *)
(** ** Strings *)

(** [s.includes(t)] *)
Fixpoint includes (s t : string) : bool :=
  if String.prefix t s then true
  else match s with
       | EmptyString => false
       | String _ s' => includes s' t
       end.

(** [s.repeat(n)] *)
Fixpoint repeat_str (s : string) (n : nat) : string :=
  match n with
  | O => ""
  | S n' => s +:+ repeat_str s n'
  end.

(** [c.toUpperCase()] on one character. Strings are ASCII text here, where
    the letters a..z are the only characters it changes. *)
Definition toUpperCase_ascii (c : ascii) : ascii :=
  let n := nat_of_ascii c in
  if (97 <=? n)%nat && (n <=? 122)%nat then ascii_of_nat (n - 32) else c.

(** [role.charAt(0).toUpperCase() + role.slice(1)] *)
Definition capitalize (s : string) : string :=
  match s with
  | EmptyString => ""
  | String c r => String (toUpperCase_ascii c) r
  end.

Definition string_of_nat (n : nat) : string :=
  NilZero.string_of_uint (Nat.to_uint n).

Definition string_of_Z (z : Z) : string :=
  NilZero.string_of_int (Z.to_int z).

(** Truthiness of a string-or-absent value: [null], [undefined] and the
    empty string are falsy. *)
Definition truthy_str (o : option string) : bool :=
  match o with
  | Some s => negb (String.eqb s "")
  | None => false
  end.

(** [a || b] where [a] is a string-or-absent value. *)
Definition or_str (o : option string) (d : string) : string :=
  if truthy_str o then default "" o else d.

(** Number of line terminators in a text. *)
Fixpoint count_newlines (s : string) : nat :=
  match s with
  | EmptyString => 0
  | String c s' =>
      (if Ascii.eqb c "010"%char then 1 else 0) + count_newlines s'
  end.

(* ------------------------------------------------------------------ *)
(** ** Accessibility Projector *)

(** A node of the accessibility snapshot. [level] is the heading depth. *)
Inductive node : Type :=
  Node (role name description : option string)
       (level : option Z) (children : list node).

Definition node_role (n : node) : option string :=
  match n with Node r _ _ _ _ => r end.
Definition node_name (n : node) : option string :=
  match n with Node _ nm _ _ _ => nm end.
Definition node_description (n : node) : option string :=
  match n with Node _ _ d _ _ => d end.
Definition node_level (n : node) : option Z :=
  match n with Node _ _ _ l _ => l end.
Definition node_children (n : node) : list node :=
  match n with Node _ _ _ _ cs => cs end.

(** [level || 1] inside the template literal. A heading level is an
    integer, and a small one: it prints in plain digits. *)
Definition level_or_1 (l : option Z) : string :=
  match l with
  | Some z => if (z =? 0)%Z then "1" else string_of_Z z
  | None => "1"
  end.

(** The [switch (role)] of [generateScreenReaderOutput]. *)
Definition phrase (role : string) (name description : option string)
    (level : option Z) : string :=
  if String.eqb role "heading" then
    "Heading level " +:+ level_or_1 level +:+ ", " +:+ or_str name "Unnamed heading"
  else if String.eqb role "button" then
    "Button, " +:+ or_str name "Unnamed button"
  else if String.eqb role "link" then
    "Link, " +:+ or_str name "Unnamed link"
  else if String.eqb role "text" then
    or_str name (or_str description "")
  else if String.eqb role "checkbox" then
    "Checkbox, " +:+ or_str name "Unnamed checkbox"
  else if String.eqb role "radio" then
    "Radio button, " +:+ or_str name "Unnamed radio button"
  else if String.eqb role "textbox" then
    "Textbox, " +:+ or_str name "Unnamed textbox"
  else
    capitalize role +:+ ", " +:+ or_str name "Unnamed".

Definition newline : string := String "010"%char EmptyString.

(** The text of a node's line after its indentation: the phrase of its role,
    then [", " + description] when there is a description. *)
Definition line_text (n : node) : string :=
  match n with
  | Node role name description level _ =>
      phrase (default "" role) name description level
      +:+ (if truthy_str description
           then ", " +:+ default "" description else "")
  end.

Definition line (depth : nat) (n : node) : string :=
  repeat_str "  " depth +:+ line_text n +:+ newline.

(** What the node itself adds to [output]: its line under [if (role)],
    nothing when [role] is falsy. *)
Definition node_output (n : node) (depth : nat) : string :=
  if truthy_str (node_role n) then line depth n else "".

Fixpoint generateScreenReaderOutput (n : node) (depth : nat) : string :=
  node_output n depth
  +:+ (fix each (cs : list node) : string :=
         match cs with
         | [] => ""
         | child :: cs' =>
             generateScreenReaderOutput child (S depth) +:+ each cs'
         end) (node_children n).

(** The snapshot may be [null]: [if (!node) return '']. *)
Definition project (tree : option node) : string :=
  match tree with
  | Some n => generateScreenReaderOutput n 0
  | None => ""
  end.

(** Pre-order enumeration of the nodes of a tree with their depths. *)
Fixpoint preorder (n : node) (depth : nat) : list (nat * node) :=
  (depth, n)
  :: (fix each (cs : list node) : list (nat * node) :=
        match cs with
        | [] => []
        | child :: cs' => preorder child (S depth) ++ each cs'
        end) (node_children n).

Definition has_line (dn : nat * node) : bool := truthy_str (node_role (snd dn)).

Definition role_non_null (dn : nat * node) : bool :=
  match node_role (snd dn) with Some _ => true | None => false end.

Definition concat_str (l : list string) : string :=
  fold_right String.append "" l.

(** The line of an enumerated node. *)
Definition render (dn : nat * node) : string := line (fst dn) (snd dn).

(** The line of an enumerated node without its terminator: the indentation,
    then the text. *)
Definition line_body (dn : nat * node) : string :=
  repeat_str "  " (fst dn) +:+ line_text (snd dn).

(** A text cut at its line terminators: the lines, each without its
    terminator, and what follows the last terminator. [cur] is the part of
    the current line already read. *)
Fixpoint split_lines (cur : string) (s : string) : list string * string :=
  match s with
  | EmptyString => ([], cur)
  | String c s' =>
      if Ascii.eqb c "010"%char then
        let (ls, rest) := split_lines "" s' in (cur :: ls, rest)
      else split_lines (cur +:+ String c "") s'
  end.

(** The newline-terminated lines of a text. *)
Definition lines (s : string) : list string := fst (split_lines "" s).

(** What a text holds after its last line terminator. *)
Definition unterminated (s : string) : string := snd (split_lines "" s).

(* ------------------------------------------------------------------ *)
(** ** JavaScript values *)

Inductive value : Type :=
| VNull
| VBool (b : bool)
| VNum (repr : string)
| VStr (s : string)
| VArr (items : list value)
| VObj (props : list (string * value)).

Inductive exn : Type :=
| TypeError
| SyntaxError
| RemoteError
| PageError
| ModelContractViolation
| TestFailed.

Inductive result (A : Type) : Type :=
| Ok (a : A)
| Throw (e : exn).
Arguments Ok {A} a.
Arguments Throw {A} e.

(** Own-property lookup in an object. *)
Fixpoint assoc (k : string) (props : list (string * value)) : option value :=
  match props with
  | [] => None
  | (k', v) :: rest => if String.eqb k k' then Some v else assoc k rest
  end.

Definition join (sep : string) (l : list string) : string :=
  match l with
  | [] => ""
  | x :: xs => fold_left (fun acc y => acc +:+ sep +:+ y) xs x
  end.

(** [String(v)] *)
Fixpoint to_string (v : value) : string :=
  match v with
  | VNull => "null"
  | VBool b => if b then "true" else "false"
  | VNum r => r
  | VStr s => s
  | VArr items =>
      join "," (map (fun x => match x with
                              | VNull => ""
                              | _ => to_string x
                              end) items)
  | VObj _ => "[object Object]"
  end.

(** [`${x}`] where [x] may be [undefined]. *)
Definition to_string_opt (o : option value) : string :=
  match o with
  | Some v => to_string v
  | None => "undefined"
  end.

Definition str_opt (o : option string) : string := default "undefined" o.

Definition hex_digit (n : nat) : ascii :=
  if (n <? 10)%nat then ascii_of_nat (48 + n) else ascii_of_nat (87 + n).

(** The escape [JSON.stringify] writes for one character of a string. *)
Definition escape_char (c : ascii) : string :=
  let n := nat_of_ascii c in
  if (n =? 34)%nat then "\" +:+ String c ""
  else if (n =? 92)%nat then "\\"
  else if (n =? 8)%nat then "\b"
  else if (n =? 9)%nat then "\t"
  else if (n =? 10)%nat then "\n"
  else if (n =? 12)%nat then "\f"
  else if (n =? 13)%nat then "\r"
  else if (n <? 32)%nat then
    "\u00" +:+ String (hex_digit (n / 16)) (String (hex_digit (n mod 16)) "")
  else String c "".

Fixpoint escape (s : string) : string :=
  match s with
  | EmptyString => ""
  | String c s' => escape_char c +:+ escape s'
  end.

Definition dquote : string := String (ascii_of_nat 34) "".

Definition quote (s : string) : string := dquote +:+ escape s +:+ dquote.

(** [JSON.stringify(v)] for a value that came out of [JSON.parse]. *)
Fixpoint JSON_stringify (v : value) : string :=
  match v with
  | VNull => "null"
  | VBool b => if b then "true" else "false"
  | VNum r => r
  | VStr s => quote s
  | VArr items => "[" +:+ join "," (map JSON_stringify items) +:+ "]"
  | VObj props =>
      "{" +:+ join "," (map (fun kv => quote (fst kv) +:+ ":"
                                       +:+ JSON_stringify (snd kv)) props)
      +:+ "}"
  end.

(** [a === b] for two values read out of two different [JSON.parse] results
    ([None] is [undefined]): primitives compare by value, arrays and objects
    by identity, and two parses never share an object. *)
Definition strict_eq (a b : option value) : bool :=
  match a, b with
  | None, None => true
  | Some VNull, Some VNull => true
  | Some (VBool x), Some (VBool y) => Bool.eqb x y
  | Some (VNum x), Some (VNum y) => String.eqb x y
  | Some (VStr x), Some (VStr y) => String.eqb x y
  | _, _ => false
  end.

(** The characters of a string, each as a one-character string. *)
Fixpoint chars (s : string) : list string :=
  match s with
  | EmptyString => []
  | String c s' => String c "" :: chars s'
  end.

(** An array index written as a property key. *)
Definition index_of_key (k : string) : option nat :=
  match NilZero.uint_of_string k with
  | Some u => let n := Nat.of_uint u in
              if String.eqb (string_of_nat n) k then Some n else None
  | None => None
  end.

(** [v[k]]: own properties of objects, [length] and the indices of arrays
    and strings; reading a property of [null] throws. The members a value
    inherits from its prototype read as [undefined] here: the code only
    interpolates what it reads this way or compares it, by [!==], with a
    value parsed from JSON, which no inherited member is identical to. *)
Definition get_prop (v : value) (k : string) : result (option value) :=
  match v with
  | VNull => Throw TypeError
  | VObj props => Ok (assoc k props)
  | VArr items =>
      if String.eqb k "length" then Ok (Some (VNum (string_of_nat (length items))))
      else Ok (match index_of_key k with
               | Some i => nth_error items i
               | None => None
               end)
  | VStr s =>
      if String.eqb k "length" then Ok (Some (VNum (string_of_nat (String.length s))))
      else Ok (match index_of_key k with
               | Some i => option_map VStr (nth_error (chars s) i)
               | None => None
               end)
  | VBool _ | VNum _ => Ok None
  end.

(** The keys [for (let key in x)] enumerates. *)
Definition keys_in (x : option value) : list string :=
  match x with
  | Some (VObj props) => map fst props
  | Some (VArr items) => map string_of_nat (seq 0 (length items))
  | Some (VStr s) => map string_of_nat (seq 0 (String.length s))
  | _ => []
  end.

(** The elements [for (let x of v)] yields; a value that is not iterable
    throws. *)
Definition iterate (v : value) : result (list value) :=
  match v with
  | VArr items => Ok items
  | VStr s => Ok (map VStr (chars s))
  | _ => Throw TypeError
  end.

(* ------------------------------------------------------------------ *)
(** ** checkAction *)

(** The [for (let key in test.testValue)] loop of [checkAction], over the
    keys still to visit. *)
Fixpoint checkAction_keys (actionElement : value) (testValue : option value)
    (keys : list string) : result bool :=
  match keys with
  | [] => Ok true
  | key :: rest =>
      if String.eqb key "description" then Ok true
      else
        match get_prop actionElement key with
        | Throw e => Throw e
        | Ok mine =>
            let theirs := match testValue with
                          | Some tv => match get_prop tv key with
                                       | Ok x => x
                                       | Throw _ => None
                                       end
                          | None => None
                          end in
            if negb (strict_eq mine theirs) then Ok false
            else checkAction_keys actionElement testValue rest
        end
  end.

Definition checkAction (actionElement : value) (testValue : option value)
    : result bool :=
  checkAction_keys actionElement testValue (keys_in testValue).

(** The [case "actionTaken"] loop: does some action of the plan match? An
    exception raised while matching leaves the [try] block. *)
Fixpoint actionTaken (plan : list value) (testValue : option value)
    : result bool :=
  match plan with
  | [] => Ok false
  | actionElement :: rest =>
      match checkAction actionElement testValue with
      | Throw e => Throw e
      | Ok true => Ok true
      | Ok false => actionTaken rest testValue
      end
  end.

(* ------------------------------------------------------------------ *)
(** ** The external boundary *)

(** One message of the conversation. *)
Record message : Type := Message { msg_role : string; msg_content : string }.

(** A DOM element as the page function sees it. *)
Record element : Type := Element {
  el_id : nat;
  textContent : string;
  aria_label : option string;
  placeholder : option string
}.

(** What the engine consumes and does not define: [JSON.parse], the chat
    exchange of the remote model, and the page automation driver. [World] is
    the state of everything outside the process. A primitive that can reject
    returns [None] (or [false]) when it does. *)
Record Env : Type := {
  World : Type;
  JSON_parse : string -> option value;
  chat : list message -> World -> option message * World;
  goto : string -> World -> bool * World;
  snapshot : World -> option (option node) * World;
  querySelectorAll : option string -> World -> option (list element);
  click : element -> World -> bool * World;
  type_into : element -> option value -> World -> bool * World;
  waitForSelector : option string -> World -> option (option element) * World;
  evaluate_checked : element -> World -> option bool * World;
  uploadFile : element -> option value -> World -> bool * World;
  select_option : element -> option value -> World -> bool * World;
  launch : World -> bool * World;
  newPage : World -> bool * World
}.

(** The trace: one event per call across the boundary, per [JSON.parse]
    attempt, and per line of console narration (the fixed text of the
    message and the values interpolated into it). *)
Inductive event : Type :=
| EvChat (history : list message)
| EvParse (text : string)
| EvGoto (url : string)
| EvSnapshot
| EvQuery (selector : option string)
| EvClick (el : element)
| EvType (el : element) (text : option value)
| EvWaitForSelector (selector : option string)
| EvChecked (el : element)
| EvUpload (el : element) (path : option value)
| EvSelect (el : element) (choice : option value)
| EvLog (text : string) (args : list string).

(** The names every plain object inherits from [Object.prototype]. *)
Definition prototype_names : list string :=
  [ "constructor"; "__proto__"; "hasOwnProperty"; "isPrototypeOf";
    "propertyIsEnumerable"; "toLocaleString"; "toString"; "valueOf";
    "__defineGetter__"; "__defineSetter__"; "__lookupGetter__";
    "__lookupSetter__" ].

Definition inherited (key : string) : bool :=
  existsb (String.eqb key) prototype_names.

(** [String(Object.prototype[key])]: the text a DOM query or a string
    concatenation receives when it is handed an inherited member. *)
Definition member_text (key : string) : string :=
  if String.eqb key "__proto__" then "[object Object]"
  else "function "
       +:+ (if String.eqb key "constructor" then "Object" else key)
       +:+ "() { [native code] }".

(** A table of selectors written as an object literal. [t !! key] is
    [t[key]] as the query receives it: the own entry, or else the text of
    the inherited member of that name, or else [undefined]. *)
Record table : Type := Table { entries : gmap string string }.

#[global] Instance table_lookup : Lookup string string table :=
  fun key t =>
    match entries t !! key with
    | Some selector => Some selector
    | None => if inherited key then Some (member_text key) else None
    end.

(** The role-to-selector table. *)
Definition roleMap : table :=
  Table (list_to_map
    [ ("Heading level 1", "h1"); ("Heading level 2", "h2");
      ("Heading level 3", "h3"); ("Heading level 4", "h4");
      ("Heading level 5", "h5"); ("Heading level 6", "h6");
      ("Button", "button");
      ("Textbox", "input[type='text'], input[type='email'], input[type='password'], textarea");
      ("Link", "a") ]).

(** A success effect, an assertion and a step of the scenario file. *)
Record SuccessEffect : Type := {
  eff_action : option string;
  eff_selector : option string;
  eff_value : option value;
  eff_valueType : option string
}.

Record Assertion : Type := {
  condition : option string;
  testValue : option value;
  onSuccess : option SuccessEffect;
  description : option string
}.

Record Step (S : Type) : Type := {
  instruction : option string;
  url : option string;
  success : S;
  next : option string
}.
Arguments instruction {S} _.
Arguments url {S} _.
Arguments success {S} _.
Arguments next {S} _.

Section Engine.

Context (E : Env).
(** The fixed system prompt; its text plays no part in the control flow. *)
Context (setupPrompt : string).

(** The process state: the outside world, the message history of the one
    [OllamaClient], and the trace of boundary calls so far. *)
Record state : Type := {
  world : World E;
  messages : list message;
  trace : list event
}.

Definition M (A : Type) : Type := state -> result A * state.

Definition ret {A} (a : A) : M A := fun st => (Ok a, st).

Definition bind {A B} (m : M A) (k : A -> M B) : M B :=
  fun st => match m st with
            | (Ok a, st') => k a st'
            | (Throw e, st') => (Throw e, st')
            end.

Definition throw {A} (e : exn) : M A := fun st => (Throw e, st).

(** [try { m } catch (error) { h }] *)
Definition try_catch {A} (m : M A) (h : M A) : M A :=
  fun st => match m st with
            | (Ok a, st') => (Ok a, st')
            | (Throw _, st') => h st'
            end.

Definition emit (e : event) : M unit :=
  fun st => (Ok tt, {| world := world st; messages := messages st;
                       trace := trace st ++ [e] |}).

Definition log (text : string) (args : list string) : M unit :=
  emit (EvLog text args).

Definition get_messages : M (list message) := fun st => (Ok (messages st), st).

Definition set_messages (ms : list message) : M unit :=
  fun st => (Ok tt, {| world := world st; messages := ms; trace := trace st |}).

(** A call across the boundary; it throws [e] when the primitive rejects. *)
Definition call {A} (e : exn) (f : World E -> option A * World E) : M A :=
  fun st => let (r, w) := f (world st) in
            let st' := {| world := w; messages := messages st; trace := trace st |} in
            match r with
            | Some a => (Ok a, st')
            | None => (Throw e, st')
            end.

Definition call_unit (f : World E -> bool * World E) : M unit :=
  call PageError
       (fun w => let (ok, w') := f w in ((if ok then Some tt else None), w')).

Definition lift {A} (r : result A) : M A := fun st => (r, st).

#[global] Instance M_ret : MRet M := @ret.
#[global] Instance M_bind : MBind M := fun A B k m => bind m k.

(** *** OllamaClient *)

Definition setup (prompt : string) : M unit :=
  set_messages [];;
  ms ← get_messages;
  set_messages (ms ++ [Message "system" prompt]);;
  ms ← get_messages;
  emit (EvChat ms);;
  _ ← call RemoteError (chat E ms);
  ret tt.

Definition send (text : string) : M string :=
  ms ← get_messages;
  set_messages (ms ++ [Message "user" text]);;
  ms ← get_messages;
  emit (EvChat ms);;
  response ← call RemoteError (chat E ms);
  ms ← get_messages;
  set_messages (ms ++ [response]);;
  ret (msg_content response).

(** *** Action Plan Parser *)

Definition firstPrompt (screenReaderOutput : string) (instr : option string)
    : string :=
  "Here is the screen reader text you hear: " +:+ screenReaderOutput +:+ "."
  +:+ newline +:+ "Here is your task: " +:+ str_opt instr +:+ "." +:+ newline
  +:+ "Please generate the JSON array of actions you would take on the page to perform the task I gave you.  Do not include any other information in your response.".

Definition correctivePrompt (screenReaderOutput : string)
    (instr : option string) : string :=
  "No, I said not to include any other information in your response.  I only want the JSON array I described in the initial prompt.  Here is the screen reader text you hear: "
  +:+ screenReaderOutput +:+ "." +:+ newline +:+ "Here is the instruction: "
  +:+ str_opt instr +:+ "." +:+ newline
  +:+ "What action would you take on the page?".

(** [JSON.parse(text)]; the attempt is recorded in the trace. *)
Definition parse (text : string) : M value :=
  emit (EvParse text);;
  match JSON_parse E text with
  | Some v => ret v
  | None => throw SyntaxError
  end.

(** The head of [runScenario]: prime the session, ask, parse, and on a
    parse failure ask once more and parse again. *)
Definition askPlan (screenReaderOutput : string) (instr : option string)
    : M value :=
  setup setupPrompt;;
  response ← send (firstPrompt screenReaderOutput instr);
  try_catch (parse response)
    (response ← send (correctivePrompt screenReaderOutput instr);
     try_catch (parse response) (throw ModelContractViolation)).

(** *** Element Resolver *)

Definition target_matches (target : string) (el : element) : bool :=
  includes (textContent el) target
  || match aria_label el with Some v => includes v target | None => false end
  || match placeholder el with Some v => includes v target | None => false end.

(** The [page.evaluateHandle] call: the page function reads
    [actionElement.role] and [actionElement.target], queries the document
    with [roleMap[actionElement.role]] and keeps the first matching element.
    The call resolves to a handle on what the page function returned: on
    the element found ([Some]), or on [undefined] ([None]). *)
Definition resolve (actionElement : value) : M (option element) :=
  role ← lift (get_prop actionElement "role");
  target ← lift (get_prop actionElement "target");
  let selector := roleMap !! to_string_opt role in
  emit (EvQuery selector);;
  els ← call PageError (fun w => (querySelectorAll E selector w, w));
  ret (List.find (target_matches (to_string_opt target)) els).

(** [const [element] = h]: array destructuring of what [waitForSelector]
    resolved to. Neither an element handle nor [null] is iterable, so the
    destructuring throws before [element] is bound. *)
Definition destructure_first (h : option element) : M (option element) :=
  throw TypeError.

(** *** Success effects

    The dispatch on [onSuccess] is the same text in both drivers but for
    console narration: [narrate] is set by the single-assertion driver, which
    prints the selector, value and value type before waiting. *)

Definition is_str (o : option string) (s : string) : bool :=
  match o with Some x => String.eqb x s | None => false end.

(** [value.toString()] *)
Definition value_toString (v : option value) : M (option value) :=
  match v with
  | None | Some VNull => throw TypeError
  | Some x => ret (Some (VStr (to_string x)))
  end.

Definition typeValue (el : element) (v : option value) : M unit :=
  emit (EvType el v);; call_unit (type_into E el v).

Definition clickElement (el : element) : M unit :=
  emit (EvClick el);; call_unit (click E el).

(** [!element] on what [evaluateHandle] resolved to: a handle is an object,
    never falsy, whatever it refers to. *)
Definition handle_missing (h : option element) : bool := false.

(** [element.click()] and [element.type(text)] on such a handle: only a
    handle on an element has these methods; on any other handle the call is
    a [TypeError]. *)
Definition handle_click (h : option element) : M unit :=
  match h with
  | Some el => clickElement el
  | None => throw TypeError
  end.

Definition handle_type (h : option element) (v : option value) : M unit :=
  match h with
  | Some el => typeValue el v
  | None => throw TypeError
  end.

Definition runEffect (narrate : bool) (eff : option SuccessEffect) : M unit :=
  let action := eff ≫= eff_action in
  let selector := eff ≫= eff_selector in
  let value := eff ≫= eff_value in
  let valueType := eff ≫= eff_valueType in
  if is_str action "click" then
    emit (EvWaitForSelector selector);;
    h ← call PageError (waitForSelector E selector);
    element ← destructure_first h;
    match element with
    | Some el => clickElement el
    | None => ret tt
    end
  else if is_str action "input" then
    (if narrate
     then log "Inputting value..."
              [str_opt selector; to_string_opt value; str_opt valueType]
     else ret tt);;
    emit (EvWaitForSelector selector);;
    inputElement ← call PageError (waitForSelector E selector);
    match inputElement with
    | Some el =>
        (if narrate
         then log "Found input element for selector" [str_opt selector]
         else ret tt);;
        if is_str valueType "text" then
          log "Typing text value" [to_string_opt value];; typeValue el value
        else if is_str valueType "number" then
          log "Typing numeric value" [to_string_opt value];;
          s ← value_toString value;
          typeValue el s
        else if is_str valueType "email" then
          log "Typing email value" [to_string_opt value];; typeValue el value
        else if is_str valueType "password" then
          log "Typing password value" [to_string_opt value];; typeValue el value
        else if is_str valueType "checkbox" then
          emit (EvChecked el);;
          isChecked ← call PageError (evaluate_checked E el);
          if negb isChecked then
            log "Checkbox is unchecked. Clicking to check it." [];;
            clickElement el
          else log "Checkbox is already checked." []
        else if is_str valueType "radio" then
          log "Clicking radio button." [];; clickElement el
        else if is_str valueType "file" then
          log "Uploading file" [to_string_opt value];;
          emit (EvUpload el value);; call_unit (uploadFile E el value)
        else if is_str valueType "select" then
          log "Selecting value" [to_string_opt value];;
          emit (EvSelect el value);; call_unit (select_option E el value)
        else log "Unknown valueType" [str_opt valueType]
    | None => log "Input element not found for Selector" [str_opt selector]
    end
  else log "No additional action taken" [].

(** [actionElement.key] read for narration, after the element was seen not
    to be [null]. *)
Definition field (actionElement : value) (k : string) : string :=
  match get_prop actionElement k with
  | Ok x => to_string_opt x
  | Throw _ => "undefined"
  end.

Definition action_is (actionElement : value) (s : string) : bool :=
  match get_prop actionElement "action" with
  | Ok x => strict_eq x (Some (VStr s))
  | Throw _ => false
  end.

Definition action_value (actionElement : value) : option value :=
  match get_prop actionElement "value" with
  | Ok x => x
  | Throw _ => None
  end.

End Engine.

Arguments world {E} _.
Arguments messages {E} _.
Arguments trace {E} _.

(* ------------------------------------------------------------------ *)
(** ** The multi-assertion driver *)

Module Scenario.
Section Driver.

Context (E : Env) (setupPrompt : string).

(** The body of [for (let actionElement of response)]. *)
Definition performAction (actionElement : value) : M E unit :=
  element ← resolve E actionElement;
  if handle_missing element then
    log E "Element not found for action"
        [field actionElement "role"; field actionElement "target"]
  else
    try_catch E
      (if action_is actionElement "click" then
         log E "Clicking on element"
             [field actionElement "role"; field actionElement "target"];;
         handle_click E element
       else if action_is actionElement "type" then
         log E "Typing value into element"
             [field actionElement "value"; field actionElement "role";
              field actionElement "target"];;
         handle_type E element (action_value actionElement)
       else log E "Unknown action" [field actionElement "action"])
      (log E "Failed action on element"
           [field actionElement "action"; field actionElement "role";
            field actionElement "target"]).

Fixpoint performActions (plan : list value) : M E unit :=
  match plan with
  | [] => mret tt
  | actionElement :: rest =>
      performAction actionElement;; performActions rest
  end.

(** The [try] block of one test: [Throw] is a failed test. *)
Definition checkCondition (response : value) (test : Assertion) : result unit :=
  if is_str (condition test) "responseIsEqual" then
    if negb (strict_eq (Some (VStr (JSON_stringify response))) (testValue test))
    then Throw TestFailed else Ok tt
  else if is_str (condition test) "responseIncludes" then
    if negb (includes (JSON_stringify response) (to_string_opt (testValue test)))
    then Throw TestFailed else Ok tt
  else if is_str (condition test) "actionTaken" then
    match iterate response with
    | Throw e => Throw e
    | Ok plan =>
        match actionTaken plan (testValue test) with
        | Throw e => Throw e
        | Ok testPassed => if negb testPassed then Throw TestFailed else Ok tt
        end
    end
  else Ok tt.

Definition passes (response : value) (test : Assertion) : bool :=
  match checkCondition response test with
  | Ok _ => true
  | Throw _ => false
  end.

(** [for (let test of successObject)] followed by [return step.next]. *)
Fixpoint evaluate (response : value) (tests : list Assertion)
    (step : Step (list Assertion)) : M E (option string) :=
  match tests with
  | [] => mret (next step)
  | test :: rest =>
      match checkCondition response test with
      | Throw _ =>
          log E "failed." [str_opt (description test)];;
          mret (Some "_failed")
      | Ok _ =>
          log E "succeeded." [str_opt (description test)];;
          runEffect E false (onSuccess test);;
          evaluate response rest step
      end
  end.

Definition runScenario (screenReaderOutput : string)
    (step : Step (list Assertion)) : M E (option string) :=
  response ← askPlan E setupPrompt screenReaderOutput (instruction step);
  log E "Performing actions on the page:" [];;
  plan ← lift E (iterate response);
  performActions plan;;
  log E "Test results:" [];;
  evaluate response (success step) step.

(** [runScenario] handed, for a step, a member that [steps] inherits from
    [Object.prototype]: its [instruction] and its [success] are [undefined].
    The plan is asked for and acted upon as for any step; the loop over the
    tests then iterates over [undefined] and throws. *)
Definition runMember (screenReaderOutput : string) : M E (option string) :=
  response ← askPlan E setupPrompt screenReaderOutput None;
  log E "Performing actions on the page:" [];;
  plan ← lift E (iterate response);
  performActions plan;;
  log E "Test results:" [];;
  throw E TypeError.

(** [while (step && step !== "_end" && step !== "_failed")] *)
Definition continues (step : option string) : bool :=
  truthy_str step
  && negb (is_str step "_end") && negb (is_str step "_failed").

(** The loop of the entry point. [fuel] bounds the number of iterations;
    [None] is returned when it runs out, the final value of [step]
    otherwise. [steps[step]] is the step of that name, or else the member of
    that name that [steps] inherits from [Object.prototype] (truthy, with
    none of a step's fields), or else [undefined]. *)
Fixpoint main_loop (fuel : nat) (steps : gmap string (Step (list Assertion)))
    (currentUrl : option string) (step : option string)
    : M E (option (option string)) :=
  if negb (continues step) then mret (Some step)
  else
    match fuel with
    | O => mret None
    | S fuel' =>
        let stepObject := steps !! default "" step in
        currentUrl' ←
          (if truthy_str (stepObject ≫= url) then
             emit E (EvGoto (default "" (stepObject ≫= url)));;
             call_unit E (goto E (default "" (stepObject ≫= url)));;
             mret (stepObject ≫= url)
           else mret currentUrl);
        if negb (truthy_str currentUrl') then
          log E "No URL set!" [];; mret (Some step)
        else
          let enter (instr : option string)
                    (run : string -> M E (option string)) :=
            log E "Instruction:" [str_opt instr];;
            emit E EvSnapshot;;
            accessibilityTree ← call E PageError (snapshot E);
            step' ← run (project accessibilityTree);
            log E newline [];;
            main_loop fuel' steps currentUrl' step' in
          match stepObject with
          | Some so =>
              enter (instruction so) (fun output => runScenario output so)
          | None =>
              if inherited (default "" step) then enter None runMember
              else log E "No step found for" [str_opt step];; mret (Some step)
          end
    end.

Definition banner (step : option string) : M E unit :=
  if is_str step "_failed" then log E "Scenario failed." []
  else if is_str step "_end" then
    log E "Scenario completed. Final step:" [str_opt step]
  else log E "Scenario failed. Unknown final step:" [str_opt step].

(** How a run of the entry point ends. *)
Inductive run_end : Type :=
| OutOfFuel
| Finished (step : option string)
| Crashed.

Definition main (fuel : nat) (steps : gmap string (Step (list Assertion)))
    : M E run_end :=
  try_catch E
    (r ← main_loop fuel steps None (Some "_start");
     match r with
     | Some step => banner step;; mret (Finished step)
     | None => mret OutOfFuel
     end)
    (log E "Error:" [];; mret Crashed).

End Driver.
End Scenario.

(* ------------------------------------------------------------------ *)
(** ** The single-assertion driver of [src/server.js] *)

Module Server.
Section Driver.

Context (E : Env) (setupPrompt : string).

Definition performAction (actionElement : value) : M E unit :=
  log E "Checking:" [JSON_stringify actionElement];;
  role ← lift E (get_prop actionElement "role");
  log E "Selector:" [default "undefined" (roleMap !! to_string_opt role)];;
  element ← resolve E actionElement;
  if handle_missing element then
    log E "Element not found for action"
        [field actionElement "role"; field actionElement "target"]
  else
    log E "Action:" [field actionElement "action"];;
    try_catch E
      (if action_is actionElement "click" then
         log E "Clicking on element"
             [field actionElement "role"; field actionElement "target"];;
         handle_click E element
       else if action_is actionElement "type" then
         log E "Typing value" [field actionElement "value"];;
         handle_type E element (action_value actionElement)
       else log E "Unknown action" [field actionElement "action"])
      (log E "Failed to operate on element"
           [field actionElement "role"; field actionElement "target"]);;
    log E newline [].

Fixpoint performActions (plan : list value) : M E unit :=
  match plan with
  | [] => mret tt
  | actionElement :: rest =>
      performAction actionElement;; performActions rest
  end.

(** The [switch (successObject?.condition)]: [false] is the early
    [return "_failed"]. *)
Definition conditionHolds (response : value) (successObject : option Assertion)
    : bool :=
  let cond := successObject ≫= condition in
  let tv := successObject ≫= testValue in
  if is_str cond "responseIsEqual" then
    strict_eq (Some (VStr (JSON_stringify response))) tv
  else if is_str cond "responseIncludes" then
    includes (JSON_stringify response) (to_string_opt tv)
  else true.

Definition runScenario (screenReaderOutput : string)
    (scenarioStepObject : Step (option Assertion)) (stepName : option string)
    : M E (option string) :=
  response ← askPlan E setupPrompt screenReaderOutput
                     (instruction scenarioStepObject);
  let successObject := success scenarioStepObject in
  if conditionHolds response successObject then
    log E "Step succeeded." [];;
    plan ← lift E (iterate response);
    performActions plan;;
    runEffect E true (successObject ≫= onSuccess);;
    mret (next scenarioStepObject)
  else
    log E "Step failed." [];;
    mret (Some "_failed").

End Driver.
End Server.

(* ------------------------------------------------------------------ *)
(** ** The earliest driver

    The first of the three versions has the same [send]; its [setup] pushes
    the system message without emptying the history first. *)

Module Earliest.

Definition setup (E : Env) (prompt : string) : M E unit :=
  ms ← get_messages E;
  set_messages E (ms ++ [Message "system" prompt]);;
  ms ← get_messages E;
  emit E (EvChat ms);;
  _ ← call E RemoteError (chat E ms);
  mret tt.

End Earliest.

(* ------------------------------------------------------------------ *)
(** ** A closed environment

    A scripted model and a static page, used to run the engine on concrete
    scenarios. [JSON_parse] is a recursive-descent reader for the JSON
    fragment those scenarios use: literals, integers written without
    fraction or exponent and small enough for a double to hold exactly,
    strings with the two-character escapes, arrays and objects. The page
    takes every selector for a type selector and never rejects one; the page
    of [Strict], further down, checks its selectors. *)

Module Demo.

Definition is_ws (c : ascii) : bool :=
  let n := nat_of_ascii c in
  (n =? 32)%nat || (n =? 9)%nat || (n =? 10)%nat || (n =? 13)%nat.

Fixpoint skip_ws (s : string) : string :=
  match s with
  | String c s' => if is_ws c then skip_ws s' else s
  | EmptyString => s
  end.

Definition is_digit (c : ascii) : bool :=
  let n := nat_of_ascii c in (48 <=? n)%nat && (n <=? 57)%nat.

Fixpoint take_digits (s : string) : string * string :=
  match s with
  | String c s' =>
      if is_digit c then let (d, r) := take_digits s' in (String c d, r)
      else ("", s)
  | EmptyString => ("", s)
  end.

(** The unsigned integer at the head of [s]: no leading zero. *)
Definition read_uint (s : string) : option (string * string) :=
  match take_digits s with
  | (EmptyString, _) => None
  | (String c EmptyString, r) => Some (String c "", r)
  | (String c d, r) =>
      if Ascii.eqb c "0"%char then None else Some (String c d, r)
  end.

Definition read_number (s : string) : option (value * string) :=
  match s with
  | String "-"%char s' =>
      match read_uint s' with
      | Some (d, r) =>
          Some (VNum (if String.eqb d "0" then "0" else "-" +:+ d), r)
      | None => None
      end
  | _ => match read_uint s with
         | Some (d, r) => Some (VNum d, r)
         | None => None
         end
  end.

Definition unescape (c : ascii) : option ascii :=
  let n := nat_of_ascii c in
  if (n =? 34)%nat || (n =? 92)%nat || (n =? 47)%nat then Some c
  else if Ascii.eqb c "b"%char then Some (ascii_of_nat 8)
  else if Ascii.eqb c "t"%char then Some (ascii_of_nat 9)
  else if Ascii.eqb c "n"%char then Some (ascii_of_nat 10)
  else if Ascii.eqb c "f"%char then Some (ascii_of_nat 12)
  else if Ascii.eqb c "r"%char then Some (ascii_of_nat 13)
  else None.

(** The rest of a string literal, after its opening quote. *)
Fixpoint read_string (s : string) : option (string * string) :=
  match s with
  | EmptyString => None
  | String c s' =>
      let n := nat_of_ascii c in
      if (n =? 34)%nat then Some ("", s')
      else if (n =? 92)%nat then
        match s' with
        | String e s'' =>
            match unescape e, read_string s'' with
            | Some u, Some (body, r) => Some (String u body, r)
            | _, _ => None
            end
        | EmptyString => None
        end
      else if (n <? 32)%nat then None
      else match read_string s' with
           | Some (body, r) => Some (String c body, r)
           | None => None
           end
  end.

(** The properties of a parsed object as [JSON.parse] leaves them: a key
    written twice keeps its first place and its last value; the keys that
    are array indices are enumerated first, in ascending order, then the
    others in the order written. *)
Fixpoint put (k : string) (v : value) (props : list (string * value))
    : list (string * value) :=
  match props with
  | [] => [(k, v)]
  | (k', v') :: rest =>
      if String.eqb k k' then (k, v) :: rest else (k', v') :: put k v rest
  end.

Fixpoint insert_index (i : nat) (kv : string * value)
    (sorted : list (nat * (string * value))) : list (nat * (string * value)) :=
  match sorted with
  | [] => [(i, kv)]
  | (j, kv') :: rest =>
      if (i <? j)%nat then (i, kv) :: sorted
      else (j, kv') :: insert_index i kv rest
  end.

Definition enumeration_order (props : list (string * value))
    : list (string * value) :=
  let distinct := fold_left (fun acc kv => put (fst kv) (snd kv) acc) props [] in
  let indexed :=
    fold_left (fun acc kv => match index_of_key (fst kv) with
                             | Some i => insert_index i kv acc
                             | None => acc
                             end) distinct [] in
  map snd indexed
  ++ List.filter (fun kv => match index_of_key (fst kv) with
                            | Some _ => false
                            | None => true
                            end) distinct.

Definition expect (c : ascii) (s : string) : option string :=
  match skip_ws s with
  | String c' s' => if Ascii.eqb c c' then Some s' else None
  | EmptyString => None
  end.

Definition strip (p s : string) : option string :=
  if String.prefix p s
  then Some (String.substring (String.length p)
                              (String.length s - String.length p) s)
  else None.

Fixpoint read_value (fuel : nat) (s : string) : option (value * string) :=
  match fuel with
  | O => None
  | S fuel' =>
      match skip_ws s with
      | String c s' =>
          let n := nat_of_ascii c in
          if (n =? 34)%nat then
            match read_string s' with
            | Some (body, r) => Some (VStr body, r)
            | None => None
            end
          else if Ascii.eqb c "["%char then
            match expect "]"%char s' with
            | Some r => Some (VArr [], r)
            | None =>
                match read_items fuel' s' with
                | Some (items, r) => Some (VArr items, r)
                | None => None
                end
            end
          else if Ascii.eqb c "{"%char then
            match expect "}"%char s' with
            | Some r => Some (VObj [], r)
            | None =>
                match read_members fuel' s' with
                | Some (props, r) => Some (VObj (enumeration_order props), r)
                | None => None
                end
            end
          else if Ascii.eqb c "n"%char then
            option_map (pair VNull) (strip "ull" s')
          else if Ascii.eqb c "t"%char then
            option_map (pair (VBool true)) (strip "rue" s')
          else if Ascii.eqb c "f"%char then
            option_map (pair (VBool false)) (strip "alse" s')
          else read_number (String c s')
      | EmptyString => None
      end
  end
with read_items (fuel : nat) (s : string) : option (list value * string) :=
  match fuel with
  | O => None
  | S fuel' =>
      match read_value fuel' s with
      | Some (v, r) =>
          match expect ","%char r with
          | Some r' =>
              match read_items fuel' r' with
              | Some (vs, r'') => Some (v :: vs, r'')
              | None => None
              end
          | None =>
              match expect "]"%char r with
              | Some r' => Some ([v], r')
              | None => None
              end
          end
      | None => None
      end
  end
with read_members (fuel : nat) (s : string)
    : option (list (string * value) * string) :=
  match fuel with
  | O => None
  | S fuel' =>
      match expect (ascii_of_nat 34) s with
      | Some r0 =>
          match read_string r0 with
          | Some (k, r1) =>
              match expect ":"%char r1 with
              | Some r2 =>
                  match read_value fuel' r2 with
                  | Some (v, r3) =>
                      match expect ","%char r3 with
                      | Some r4 =>
                          match read_members fuel' r4 with
                          | Some (ps, r5) => Some ((k, v) :: ps, r5)
                          | None => None
                          end
                      | None =>
                          match expect "}"%char r3 with
                          | Some r4 => Some ([(k, v)], r4)
                          | None => None
                          end
                      end
                  | None => None
                  end
              | None => None
              end
          | None => None
          end
      | None => None
      end
  end.

Definition parse_json (text : string) : option value :=
  match read_value (2 * String.length text + 2) text with
  | Some (v, r) => match skip_ws r with
                   | EmptyString => Some v
                   | _ => None
                   end
  | None => None
  end.

(** The outside: the replies the model will give to the successive chat
    exchanges ([None]: the exchange rejects), the elements of the page with
    their tag names, and the accessibility tree the page reports. *)
Record outside : Type := {
  script : list (option string);
  dom : list (string * element);
  tree : option node
}.

Definition demo_chat (history : list message) (w : outside)
    : option message * outside :=
  match script w with
  | reply :: rest =>
      (option_map (Message "assistant") reply,
       {| script := rest; dom := dom w; tree := tree w |})
  | [] => (None, w)
  end.

(** A type selector matches on the tag name; an absent selector is the
    type selector [undefined]. *)
Definition demo_query (selector : option string) (w : outside) : list element :=
  map snd (List.filter (fun p => String.eqb (fst p) (default "undefined" selector))
                  (dom w)).

Definition demo_wait (selector : option string) (w : outside)
    : option (option element) * outside :=
  match demo_query selector w with
  | el :: _ => (Some (Some el), w)
  | [] => (None, w)
  end.

Definition env : Env := {|
  World := outside;
  JSON_parse := parse_json;
  chat := demo_chat;
  goto := fun _ w => (true, w);
  snapshot := fun w => (Some (tree w), w);
  querySelectorAll := fun selector w => Some (demo_query selector w);
  click := fun _ w => (true, w);
  type_into := fun _ _ w => (true, w);
  waitForSelector := demo_wait;
  evaluate_checked := fun _ w => (Some false, w);
  uploadFile := fun _ _ w => (true, w);
  select_option := fun _ _ w => (true, w);
  launch := fun w => (true, w);
  newPage := fun w => (true, w)
|}.

Definition start (w : outside) : state env :=
  {| world := (w : World env); messages := []; trace := [] |}.

End Demo.

(* ------------------------------------------------------------------ *)
(** ** A page that checks its selectors

    The page of [Demo], with a query that rejects what is no selector, as
    [document.querySelectorAll] does with a [SyntaxError]. The selectors it
    accepts are comma-separated lists of type selectors, each with optional
    attribute tests and separated by descendant combinators; an element
    matches when its tag name is one of the comma-separated parts (the
    elements of these pages carry no attribute a test could ask for). *)

Module Strict.
Import Demo.

Inductive sel_state : Type :=
| SelStart
| SelIdent
| SelGap
| AttrStart
| AttrName
| AttrEq
| AttrQuoted (quote : ascii)
| AttrBare
| AttrEnd.

Definition is_ident_char (c : ascii) : bool :=
  let n := nat_of_ascii c in
  ((97 <=? n)%nat && (n <=? 122)%nat) || ((65 <=? n)%nat && (n <=? 90)%nat)
  || ((48 <=? n)%nat && (n <=? 57)%nat) || (n =? 45)%nat || (n =? 95)%nat.

Definition is_quote (c : ascii) : bool :=
  let n := nat_of_ascii c in (n =? 34)%nat || (n =? 39)%nat.

(** The recogniser, one character at a time. *)
Definition sel_step (q : sel_state) (c : ascii) : option sel_state :=
  match q with
  | SelStart =>
      if Ascii.eqb c " "%char then Some SelStart
      else if is_ident_char c then Some SelIdent
      else if Ascii.eqb c "["%char then Some AttrStart
      else None
  | SelIdent =>
      if is_ident_char c then Some SelIdent
      else if Ascii.eqb c "["%char then Some AttrStart
      else if Ascii.eqb c ","%char then Some SelStart
      else if Ascii.eqb c " "%char then Some SelGap
      else None
  | SelGap =>
      if Ascii.eqb c " "%char then Some SelGap
      else if Ascii.eqb c ","%char then Some SelStart
      else if is_ident_char c then Some SelIdent
      else if Ascii.eqb c "["%char then Some AttrStart
      else None
  | AttrStart => if is_ident_char c then Some AttrName else None
  | AttrName =>
      if is_ident_char c then Some AttrName
      else if Ascii.eqb c "]"%char then Some SelIdent
      else if Ascii.eqb c "="%char then Some AttrEq
      else None
  | AttrEq =>
      if is_quote c then Some (AttrQuoted c)
      else if is_ident_char c then Some AttrBare
      else None
  | AttrQuoted quote =>
      if Ascii.eqb c quote then Some AttrEnd else Some (AttrQuoted quote)
  | AttrBare =>
      if is_ident_char c then Some AttrBare
      else if Ascii.eqb c "]"%char then Some SelIdent
      else None
  | AttrEnd => if Ascii.eqb c "]"%char then Some SelIdent else None
  end.

Fixpoint accepts (q : sel_state) (s : string) : bool :=
  match s with
  | EmptyString => match q with SelIdent | SelGap => true | _ => false end
  | String c s' =>
      match sel_step q c with
      | Some q' => accepts q' s'
      | None => false
      end
  end.

Definition valid_selector (s : string) : bool := accepts SelStart s.

(** The comma-separated parts of a selector, blanks removed. *)
Fixpoint parts (cur : string) (s : string) : list string :=
  match s with
  | EmptyString => [cur]
  | String c s' =>
      if Ascii.eqb c ","%char then cur :: parts "" s'
      else if Ascii.eqb c " "%char then parts cur s'
      else parts (cur +:+ String c "") s'
  end.

Definition strict_query (selector : option string) (w : outside)
    : option (list element) :=
  let text := default "undefined" selector in
  if valid_selector text then
    Some (map snd (List.filter
                     (fun p => existsb (String.eqb (fst p)) (parts "" text))
                     (dom w)))
  else None.

Definition strict_wait (selector : option string) (w : outside)
    : option (option element) * outside :=
  match strict_query selector w with
  | Some (el :: _) => (Some (Some el), w)
  | _ => (None, w)
  end.

Definition env : Env := {|
  World := outside;
  JSON_parse := parse_json;
  chat := demo_chat;
  goto := fun _ w => (true, w);
  snapshot := fun w => (Some (tree w), w);
  querySelectorAll := strict_query;
  click := fun _ w => (true, w);
  type_into := fun _ _ w => (true, w);
  waitForSelector := strict_wait;
  evaluate_checked := fun _ w => (Some false, w);
  uploadFile := fun _ _ w => (true, w);
  select_option := fun _ _ w => (true, w);
  launch := fun w => (true, w);
  newPage := fun w => (true, w)
|}.

Definition start (w : outside) : state env :=
  {| world := (w : World env); messages := []; trace := [] |}.

End Strict.

(* ------------------------------------------------------------------ *)
(** ** Vocabulary of the properties *)

(** The state [st] with [tr] appended to its trace. *)
Definition extend {E : Env} (st : state E) (tr : list event) : state E :=
  {| world := world st; messages := messages st; trace := trace st ++ tr |}.

(** The texts handed to [JSON.parse], in order. *)
Definition parse_attempts (tr : list event) : list string :=
  omap (fun e => match e with EvParse text => Some text | _ => None end) tr.

(** The texts handed to [send]: the exchanges whose history ends in a user
    message. *)
Definition sent_messages (tr : list event) : list string :=
  omap (fun e => match e with
                 | EvChat history =>
                     match last history with
                     | Some m => if String.eqb (msg_role m) "user"
                                 then Some (msg_content m) else None
                     | None => None
                     end
                 | _ => None
                 end) tr.

(** An event of the action loop, of the evaluator or of a success effect:
    not a chat exchange, not a parse attempt, not a navigation, not a
    snapshot. *)
Definition in_step (e : event) : Prop :=
  match e with
  | EvChat _ | EvParse _ | EvGoto _ | EvSnapshot => False
  | _ => True
  end.

(** [m] only appends to the trace, and every event it appends satisfies
    [P]. *)
Definition appends {E : Env} {A : Type} (P : event -> Prop) (m : M E A)
    : Prop :=
  forall st, exists tr, trace (snd (m st)) = trace st ++ tr /\ Forall P tr.

(** The keys of a pattern that [checkAction] compares: those enumerated
    before the first [description] key. *)
Fixpoint keys_before_description (keys : list string) : list string :=
  match keys with
  | [] => []
  | key :: rest =>
      if String.eqb key "description" then []
      else key :: keys_before_description rest
  end.

(** The chain of [next] pointers from a step name to the name that ends
    it, with the number of names on it that the loop enters. The chain ends
    on a name the loop condition rejects (falsy, ["_end"], ["_failed"]), on
    a name for which [steps[name]] is [undefined], or on a name that
    [steps] inherits from [Object.prototype]: that member is entered like a
    step, and its run always ends in an exception. The chain is the longest
    path of the step graph from that name, the only other edges being those
    into ["_failed"]. *)
Inductive path_to_terminal (steps : gmap string (Step (list Assertion)))
    : option string -> nat -> Prop :=
| path_terminal step :
    Scenario.continues step = false -> path_to_terminal steps step 0
| path_unresolved step :
    Scenario.continues step = true ->
    steps !! default "" step = None ->
    inherited (default "" step) = false ->
    path_to_terminal steps step 0
| path_member step :
    Scenario.continues step = true ->
    steps !! default "" step = None ->
    inherited (default "" step) = true ->
    path_to_terminal steps step 1
| path_next step stepObject n :
    Scenario.continues step = true ->
    steps !! default "" step = Some stepObject ->
    path_to_terminal steps (next stepObject) n ->
    path_to_terminal steps step (S n).

(** The steps visited: one accessibility snapshot is taken per step
    entered. *)
Definition visits (tr : list event) : nat :=
  length (List.filter (fun e => match e with EvSnapshot => true | _ => false end)
                      tr).

Definition no_snapshot (e : event) : Prop :=
  match e with EvSnapshot => False | _ => True end.

(** A run of the loop that does not run out of fuel and visits at most [n]
    steps. *)
Definition bounded_run {E : Env} (n : nat) (m : M E (option (option string)))
    : Prop :=
  forall st,
    fst (m st) <> Ok None
    /\ exists tr, trace (snd (m st)) = trace st ++ tr /\ visits tr <= n.

(** One hop of the chain: from the name of a step the loop enters to the
    [next] of that step. *)
Definition hop (steps : gmap string (Step (list Assertion)))
    (a b : option string) : Prop :=
  Scenario.continues a = true
  /\ exists stepObject, steps !! default "" a = Some stepObject
                        /\ next stepObject = b.

(** No cycle of hops is reachable from ["_start"]. A hop never leaves
    ["_end"] or ["_failed"], so cycles through them do not count. *)
Definition acyclic (steps : gmap string (Step (list Assertion))) : Prop :=
  forall a, rtc (hop steps) (Some "_start") a -> ~ tc (hop steps) a a.

(** The calls made to the page. *)
Definition is_page_event (e : event) : bool :=
  match e with
  | EvChat _ | EvParse _ | EvLog _ _ => false
  | _ => true
  end.

Definition page_events (tr : list event) : list event :=
  List.filter is_page_event tr.

(** Concrete scenarios on the closed environment. *)
Module Cases.
Import Demo.

Definition goButton : element := Element 1 "Go" None None.

(** A page with one button; the model answers the priming exchange and then
    gives [reply]. *)
Definition goPage (reply : string) : outside :=
  {| script := [Some "ready"; Some reply];
     dom := [("button", goButton)];
     tree := Some (Node (Some "button") (Some "Go") None None []) |}.

Definition clickEffect : SuccessEffect :=
  {| eff_action := Some "click"; eff_selector := Some "button";
     eff_value := None; eff_valueType := None |}.

Definition radioEffect : SuccessEffect :=
  {| eff_action := Some "input"; eff_selector := Some "button";
     eff_value := None; eff_valueType := Some "radio" |}.

Definition unconditional (eff : SuccessEffect) : Assertion :=
  {| condition := None; testValue := None; onSuccess := Some eff;
     description := Some "always" |}.

Definition effectStep (eff : SuccessEffect) : Step (list Assertion) :=
  {| instruction := Some "wait"; url := Some "http://x";
     success := [unconditional eff]; next := Some "_end" |}.

Definition clickGo : value :=
  VObj [("action", VStr "click"); ("role", VStr "Button");
        ("target", VStr "Go")].

Definition expectsEmptyPlan : Assertion :=
  {| condition := Some "responseIsEqual"; testValue := Some (VStr "[]");
     onSuccess := None; description := Some "nothing to do" |}.

Definition stepWith {S : Type} (s : S) : Step S :=
  {| instruction := Some "press go"; url := Some "http://x";
     success := s; next := Some "_end" |}.

Definition linkAction : value :=
  VObj [("action", VStr "click"); ("role", VStr "Link");
        ("target", VStr "Submit")].

Definition buttonPattern : value :=
  VObj [("role", VStr "Button"); ("target", VStr "Submit")].

Definition describedButtonPattern : value :=
  VObj [("description", VStr "the submit button"); ("role", VStr "Button");
        ("target", VStr "Submit")].

Definition actionTakenTest (pattern : value) : Assertion :=
  {| condition := Some "actionTaken"; testValue := Some pattern;
     onSuccess := None; description := Some "clicked submit" |}.

(** The end-to-end scenario: one step asking for a click on Submit. *)
Definition submitButton : element := Element 7 "Submit" None None.

Definition submitPage (plan : value) : outside :=
  {| script := [Some "ready"; Some (JSON_stringify plan)];
     dom := [("button", submitButton)];
     tree := Some (Node (Some "RootWebArea") (Some "App") None None
                        [Node (Some "button") (Some "Submit") None None []]) |}.

Definition clickedSubmit : Assertion :=
  {| condition := Some "actionTaken";
     testValue := Some (VObj [("action", VStr "click"); ("role", VStr "Button");
                              ("target", VStr "Submit")]);
     onSuccess := None; description := Some "clicked submit" |}.

Definition submitScenario : gmap string (Step (list Assertion)) :=
  {[ "_start" := {| instruction := Some "click submit";
                    url := Some "http://x";
                    success := [clickedSubmit]; next := Some "_end" |} ]}.

Definition buttonPlan : value :=
  VArr [VObj [("action", VStr "click"); ("role", VStr "Button");
              ("target", VStr "Submit"); ("value", VStr "leftMouseButton")]].

Definition linkPlan : value :=
  VArr [VObj [("action", VStr "click"); ("role", VStr "Link");
              ("target", VStr "Submit")]].

(** The model first answers in prose, then with an empty plan. *)
Definition chattyPage : outside :=
  {| script := [Some "ready"; Some "Sure, here it is"; Some "[]"];
     dom := [("button", goButton)];
     tree := None |}.

(** The states that run goes through: after [setup], after the first
    [send] and its failed parse, after the second [send]. *)
Definition chattyStep : Step (list Assertion) := stepWith [].

Definition chatty0 : state env := start chattyPage.

Definition chatty1 : state env := snd (setup env "" chatty0).

Definition chatty2 : state env :=
  snd (send env (firstPrompt "" (instruction chattyStep)) chatty1).

Definition chatty3 : state env :=
  snd (send env (correctivePrompt "" (instruction chattyStep))
            (extend chatty2 [EvParse "Sure, here it is"])).

(** An action on a role the table does not know. *)
Definition sliderAction : list (string * value) :=
  [("action", VStr "click"); ("role", VStr "Slider"); ("target", VStr "Go")].

(** A scenario of one step. *)
Definition oneStep : gmap string (Step (list Assertion)) :=
  {[ "_start" := stepWith ([] : list Assertion) ]}.

End Cases.


(* ------------------------------------------------------------------ *)
(** ** printPretty *)

(** [Math.max(...lines.map(line => line.length))]: with no line it is
    [-Infinity], here [None]. *)
Definition maxLength (lines : list string) : option nat :=
  match lines with
  | [] => None
  | _ => Some (fold_right Nat.max 0 (map String.length lines))
  end.

(** One row of the box around [line]. *)
Definition paddedLine (char : string) (padding width : nat) (line : string)
    : string :=
  char +:+ (repeat_str " " padding +:+ line
            +:+ repeat_str " " (width - String.length line)
            +:+ repeat_str " " padding) +:+ char.

(** The rows [printPretty] joins with line breaks and prints: the border,
    the padded lines, the border. With no line, [char.repeat(-Infinity)]
    throws a [RangeError]: [None]. *)
Definition printPretty (char : string) (padding : nat) (lines : list string)
    : option (list string) :=
  match maxLength lines with
  | None => None
  | Some width =>
      let border := repeat_str char (width + padding * 2 + 2) in
      Some (border :: map (paddedLine char padding width) lines ++ [border])
  end.

(* ------------------------------------------------------------------ *)
(** ** The entry point of [src/server.js] *)

Module ServerEntry.
Section Loop.

Context (E : Env) (setupPrompt : string).

(** [while (step && step !== "_end")] *)
Definition continues (step : option string) : bool :=
  truthy_str step && negb (is_str step "_end").

(** What [steps[step]] is when [step] names no step but a member inherited
    from [Object.prototype]: a truthy value on which every field of a step
    reads [undefined]. *)
Definition member : Step (option Assertion) :=
  {| instruction := None; url := None; success := None; next := None |}.

Fixpoint main_loop (fuel : nat) (steps : gmap string (Step (option Assertion)))
    (currentUrl : option string) (step : option string)
    : M E (option (option string)) :=
  if negb (continues step) then mret (Some step)
  else
    match fuel with
    | O => mret None
    | S fuel' =>
        let stepObject := steps !! default "" step in
        currentUrl' ←
          (if truthy_str (stepObject ≫= url) then
             emit E (EvGoto (default "" (stepObject ≫= url)));;
             call_unit E (goto E (default "" (stepObject ≫= url)));;
             mret (stepObject ≫= url)
           else mret currentUrl);
        if negb (truthy_str currentUrl') then
          log E "No URL set!" [];; mret (Some step)
        else
          log E "Current URL:" [str_opt currentUrl'];;
          log E "Step:" [str_opt step];;
          let enter (so : Step (option Assertion)) :=
            log E "Instruction:" [str_opt (instruction so)];;
            log E newline [];;
            emit E EvSnapshot;;
            accessibilityTree ← call E PageError (snapshot E);
            step' ← Server.runScenario E setupPrompt
                      (project accessibilityTree) so step;
            main_loop fuel' steps currentUrl' step' in
          match stepObject with
          | Some so => enter so
          | None =>
              if inherited (default "" step) then enter member
              else log E "No step found for" [str_opt step];; mret (Some step)
          end
    end.

Definition main (fuel : nat) (steps : gmap string (Step (option Assertion)))
    : M E Scenario.run_end :=
  try_catch E
    (r ← main_loop fuel steps None (Some "_start");
     match r with
     | Some step =>
         log E "Scenario completed. Final step:" [str_opt step];;
         mret (Scenario.Finished step)
     | None => mret Scenario.OutOfFuel
     end)
    (log E "Error:" [];; mret Scenario.Crashed).

End Loop.
End ServerEntry.

(* ------------------------------------------------------------------ *)
(** ** The earliest driver, whole

    The first version asks the model once per step and compares the raw
    reply; it neither parses the reply nor acts on the page outside the
    success effect. Its steps name their successor [nextStep], carried here
    by the field [next]. [setup] is called once, by the entry point. *)

Module EarliestDriver.
Section Driver.

Context (E : Env).

Definition setupPrompt : string :=
  "You are a visually disabled user who uses a screen reader.  You will be presented with the output of a screen reader and an instruction of what I want you to do on the page.  You will respond with the action you would take on the page.  You will only respond with the action you would take.  Do not include any other information in your response.  The screen reader output will be in the format of 'Heading level 1, Main Heading' or 'Button, Submit'.".

Definition prompt (screenReaderOutput : string) (instr : option string)
    : string :=
  "Here is the screen reader text you hear: " +:+ screenReaderOutput +:+ "."
  +:+ newline +:+ "Here is the instruction: " +:+ str_opt instr +:+ "."
  +:+ newline +:+ "What action would you take on the page?".

(** The [switch (successObject?.condition)] on the raw reply. *)
Definition conditionHolds (response : string) (successObject : option Assertion)
    : bool :=
  let cond := successObject ≫= condition in
  let tv := successObject ≫= testValue in
  if is_str cond "responseIsEqual" then strict_eq (Some (VStr response)) tv
  else if is_str cond "responseIncludes" then
    includes response (to_string_opt tv)
  else true.

(** [const { action, selector, value, valueType } = successObject?.onSuccess]
    has no fallback: destructuring [undefined] throws. *)
Definition runScenario (screenReaderOutput : string)
    (scenarioStepObject : Step (option Assertion)) : M E (option string) :=
  response ← send E (prompt screenReaderOutput
                            (instruction scenarioStepObject));
  log E "Response:" [response];;
  let successObject := success scenarioStepObject in
  if conditionHolds response successObject then
    log E "Step succeeded." [];;
    match successObject ≫= onSuccess with
    | None => throw E TypeError
    | Some eff =>
        runEffect E true (Some eff);;
        mret (next scenarioStepObject)
    end
  else
    log E "Step failed." [];;
    mret (Some "_failed").

Fixpoint main_loop (fuel : nat) (steps : gmap string (Step (option Assertion)))
    (step : option string) : M E (option (option string)) :=
  if negb (ServerEntry.continues step) then mret (Some step)
  else
    match fuel with
    | O => mret None
    | S fuel' =>
        log E "Step:" [str_opt step];;
        let enter (so : Step (option Assertion)) :=
          emit E EvSnapshot;;
          accessibilityTree ← call E PageError (snapshot E);
          log E "Screen Reader Output:" [project accessibilityTree];;
          step' ← runScenario (project accessibilityTree) so;
          main_loop fuel' steps step' in
        match steps !! default "" step with
        | Some so => enter so
        | None =>
            if inherited (default "" step) then enter ServerEntry.member
            else log E "No step found for" [str_opt step];; mret (Some step)
        end
    end.

(** The entry point. [setup], [puppeteer.launch] and [browser.newPage] are
    awaited before the [try]: their failures are not caught. The scenario
    file is read and parsed inside the [try]; [scenario] is what that gives,
    [None] when it throws (an empty file reads as a scenario with no step).
    The console lines that dump the page object and the raw accessibility
    tree are left out. *)
Definition main (fuel : nat)
    (scenario : option (gmap string (Step (option Assertion))))
    : M E Scenario.run_end :=
  Earliest.setup E setupPrompt;;
  call_unit E (launch E);;
  call_unit E (newPage E);;
  try_catch E
    (emit E (EvGoto "http://localhost:3000");;
     call_unit E (goto E "http://localhost:3000");;
     steps ← lift E (match scenario with
                     | Some steps => Ok steps
                     | None => Throw SyntaxError
                     end);
     r ← main_loop fuel steps (Some "_start");
     match r with
     | Some step =>
         log E "Scenario completed. Final step:" [str_opt step];;
         mret (Scenario.Finished step)
     | None => mret Scenario.OutOfFuel
     end)
    (log E "Error:" [];; mret Scenario.Crashed).

End Driver.
End EarliestDriver.

(* ------------------------------------------------------------------ *)
(** ** Vocabulary of the further properties *)

(** A success effect that is neither a [click] nor an [input]: the
    dispatch falls to its default branch. An absent [onSuccess] is one. *)
Definition inert (eff : option SuccessEffect) : bool :=
  negb (is_str (eff ≫= eff_action) "click")
  && negb (is_str (eff ≫= eff_action) "input").

(** [m] leaves the message history as it found it. *)
Definition keeps_history {E : Env} {A : Type} (m : M E A) : Prop :=
  forall st, messages (snd (m st)) = messages st.


Definition is_chat (e : event) : bool :=
  match e with EvChat _ => true | _ => false end.

(** An environment whose model always answers, never with JSON. *)
Module Stubborn.

Definition env : Env := {|
  World := unit;
  JSON_parse := fun _ => None;
  chat := fun _ w => (Some (Message "assistant" "I would click it"), w);
  goto := fun _ w => (true, w);
  snapshot := fun w => (Some None, w);
  querySelectorAll := fun _ _ => Some [];
  click := fun _ w => (true, w);
  type_into := fun _ _ w => (true, w);
  waitForSelector := fun _ w => (Some None, w);
  evaluate_checked := fun _ w => (Some false, w);
  uploadFile := fun _ _ w => (true, w);
  select_option := fun _ _ w => (true, w);
  launch := fun w => (true, w);
  newPage := fun w => (true, w)
|}.

Definition start : state env :=
  {| world := (tt : World env); messages := []; trace := [] |}.

End Stubborn.

(** A text with no line terminator in it. *)
Definition single_line (o : option string) : Prop :=
  count_newlines (default "" o) = 0.

Definition single_line_fields (dn : nat * node) : Prop :=
  single_line (node_role (snd dn)) /\ single_line (node_name (snd dn))
  /\ single_line (node_description (snd dn)).

(** A parsed reply that [for ... of] cannot iterate: anything but an array
    or a string. *)
Definition not_iterable (v : value) : Prop :=
  match v with
  | VArr _ | VStr _ => False
  | _ => True
  end.

Module Replies.
Import Demo.

(** The model answers with a JSON object, not an array. *)
Definition objectPage : outside :=
  {| script := [Some "ready"; Some "{}"];
     dom := [("button", Cases.goButton)];
     tree := None |}.

Definition afterObject : state env :=
  snd (askPlan env "" "" (instruction Cases.chattyStep) (start objectPage)).

End Replies.


(** What a passing test with an inert effect adds to the trace. *)
Definition passed_events (test : Assertion) : list event :=
  [EvLog "succeeded." [str_opt (description test)];
   EvLog "No additional action taken" []].

Definition passes_inertly (response : value) (test : Assertion) : Prop :=
  Scenario.passes response test = true /\ inert (onSuccess test) = true.

Module Effects.




Definition plainTest (cond : option string) (tv : option value) (d : string)
    : Assertion :=
  {| condition := cond; testValue := tv; onSuccess := None;
     description := Some d |}.

End Effects.

Module Silent.
Import Demo.

(** The model answers the priming exchange and then goes away. *)
Definition page : outside :=
  {| script := [Some "ready"; None]; dom := []; tree := None |}.

Definition primed : state env := snd (setup env "" (start page)).

End Silent.

(** Every name the loop [m] hands back satisfies [R]. *)
Definition exits_with {E : Env} (R : option string -> Prop)
    (m : M E (option (option string))) : Prop :=
  forall st s, fst (m st) = Ok (Some s) -> R s.

(** Why the multi-assertion loop, started on the name [start] with the URL
    [currentUrl] in force, may stop on the name [s]: the loop condition
    rejects [s]; or [steps[s]] is [undefined] (no step bears the name and
    nothing of that name is inherited); or [s] is the name the loop was
    started on, no URL was in force then and its step declares none. *)
Definition exit_reason (steps : gmap string (Step (list Assertion)))
    (currentUrl start : option string) (s : option string) : Prop :=
  (truthy_str s = false \/ s = Some "_end" \/ s = Some "_failed")
  \/ (steps !! default "" s = None /\ inherited (default "" s) = false)
  \/ (s = start /\ truthy_str currentUrl = false
      /\ truthy_str (steps !! default "" s ≫= url) = false).

(** The same for the loop of [src/server.js], whose condition rejects the
    falsy names and ["_end"] only. *)
Definition server_exit_reason (steps : gmap string (Step (option Assertion)))
    (currentUrl start : option string) (s : option string) : Prop :=
  (truthy_str s = false \/ s = Some "_end")
  \/ (steps !! default "" s = None /\ inherited (default "" s) = false)
  \/ (s = start /\ truthy_str currentUrl = false
      /\ truthy_str (steps !! default "" s ≫= url) = false).

Module Graphs.

(** A scenario whose only step declares no URL. *)
Definition noUrl : gmap string (Step (list Assertion)) :=
  {[ "_start" := {| instruction := Some "press go"; url := None;
                    success := []; next := Some "_end" |} ]}.

(** A one-step scenario, in the single-assertion schema. *)
Definition single : gmap string (Step (option Assertion)) :=
  {[ "_start" := Cases.stepWith (Some Cases.expectsEmptyPlan) ]}.

End Graphs.

(** An event that is no call to the page. *)
Definition off_page (e : event) : Prop :=
  match e with
  | EvChat _ | EvParse _ | EvLog _ _ => True
  | _ => False
  end.



(** A console line. *)
Definition is_log (e : event) : bool :=
  match e with EvLog _ _ => true | _ => false end.

(** Any event but the console line of the "not found" branch. *)
Definition silent_on_missing (e : event) : Prop :=
  match e with
  | EvLog text _ =>
      if String.eqb text "Element not found for action" then False else True
  | _ => True
  end.

(** Names that reach [Object.prototype]. *)
Module Prototype.
Import Demo.

Definition constructorAction : value :=
  VObj [("action", VStr "click"); ("role", VStr "constructor");
        ("target", VStr "Go")].

(** The plan the model proposes: [first], then a click on the button. *)
Definition plan (first : value) : value := VArr [first; Cases.clickGo].

(** A page with one button, whose model answers the priming exchange and
    then writes out the plan [p]. *)
Definition page (p : value) : outside :=
  {| script := [Some "ready"; Some (JSON_stringify p)];
     dom := [("button", Cases.goButton)];
     tree := Some (Node (Some "button") (Some "Go") None None []) |}.

(** A scenario of one step whose [next] is [name]. *)
Definition strayNext (name : string) : gmap string (Step (list Assertion)) :=
  {[ "_start" := {| instruction := Some "press go"; url := Some "http://x";
                    success := []; next := Some name |} ]}.

(** A page with one button, whose model answers two steps: an empty plan,
    then a click on the button. *)
Definition twoRounds : outside :=
  {| script := [Some "ready"; Some "[]";
                Some "ready"; Some (JSON_stringify (VArr [Cases.clickGo]))];
     dom := [("button", Cases.goButton)];
     tree := Some (Node (Some "button") (Some "Go") None None []) |}.

End Prototype.

(* ================================================================== *)
(** * Properties *)

(** ** Strings *)

Lemma append_assoc (a b c : string) : (a +:+ b) +:+ c = a +:+ (b +:+ c).
Proof. induction a as [|x a IH]; simpl; [reflexivity | now rewrite IH]. Qed.

Lemma append_empty_r (a : string) : a +:+ "" = a.
Proof. induction a as [|x a IH]; simpl; [reflexivity | now rewrite IH]. Qed.

Lemma prefix_spec (t s : string) :
  String.prefix t s = true <-> exists post, s = t +:+ post.
Proof.
  revert s; induction t as [|c t IH]; intros s.
  - destruct s; simpl; split; eauto.
  - destruct s as [|d s]; simpl.
    + split; [discriminate | intros [post H]; discriminate].
    + destruct (ascii_dec c d) as [->|Hne].
      * rewrite IH. split; intros [post H]; exists post.
        -- now rewrite H.
        -- now injection H.
      * split; [discriminate |].
        intros [post H]. injection H as H1 H2. congruence.
Qed.

Lemma includes_spec (s t : string) :
  includes s t = true <-> exists pre post, s = pre +:+ t +:+ post.
Proof.
  induction s as [|c s IH].
  - cbn [includes]. destruct (String.prefix t "") eqn:Hp.
    + split; [intros _ | reflexivity].
      apply prefix_spec in Hp as [post Hp]. now exists "", post.
    + split; [discriminate |].
      intros [pre [post H]]. destruct pre; simpl in H.
      * assert (String.prefix t "" = true) by (apply prefix_spec; eauto).
        congruence.
      * discriminate.
  - cbn [includes]. destruct (String.prefix t (String c s)) eqn:Hp.
    + split; [intros _ | reflexivity].
      apply prefix_spec in Hp as [post Hp]. now exists "", post.
    + rewrite IH. split.
      * intros [pre [post H]]. exists (String c pre), post. simpl. now rewrite H.
      * intros [pre [post H]]. destruct pre as [|d pre]; simpl in H.
        -- assert (String.prefix t (String c s) = true)
             by (apply prefix_spec; eauto).
           congruence.
        -- injection H as _ H. eauto.
Qed.

Lemma length_append (a b : string) :
  String.length (a +:+ b) = String.length a + String.length b.
Proof. induction a as [|x a IH]; simpl; [reflexivity | now rewrite IH]. Qed.

Lemma repeat_str_length (s : string) (n : nat) :
  String.length (repeat_str s n) = n * String.length s.
Proof.
  induction n as [|n IH]; simpl; [reflexivity |].
  rewrite length_append, IH. reflexivity.
Qed.

Lemma concat_str_app (l1 l2 : list string) :
  concat_str (l1 ++ l2) = concat_str l1 +:+ concat_str l2.
Proof.
  induction l1 as [|x l1 IH]; [reflexivity |].
  change (x +:+ concat_str (l1 ++ l2)
          = (x +:+ concat_str l1) +:+ concat_str l2).
  now rewrite IH, append_assoc.
Qed.

(** ** Accessibility Projector *)

Lemma node_output_render (n : node) (depth : nat) :
  node_output n depth = concat_str (map render (List.filter has_line [(depth, n)])).
Proof.
  unfold node_output, has_line, render, concat_str. simpl.
  destruct (truthy_str (node_role n)); simpl; [now rewrite append_empty_r | reflexivity].
Qed.

(** Induction over the tree together with the list of children. *)
Lemma node_ind_children (P : node -> Prop) :
  (forall role name description level children,
      Forall P children -> P (Node role name description level children)) ->
  forall n, P n.
Proof.
  intros H. fix IH 1. intros [role name description level children].
  apply H. induction children as [|c cs IHcs]; constructor; [apply IH | exact IHcs].
Qed.

Lemma generate_preorder (n : node) :
  forall depth,
    generateScreenReaderOutput n depth
    = concat_str (map render (List.filter has_line (preorder n depth))).
Proof.
  induction n as [role name description level children IH] using node_ind_children.
  intros depth. cbn [generateScreenReaderOutput preorder node_children].
  change ((depth, Node role name description level children) :: ?l)
    with ([(depth, Node role name description level children)] ++ l).
  rewrite List.filter_app, List.map_app, concat_str_app, <- node_output_render.
  f_equal.
  induction IH as [|c cs Hc _ IHcs]; [reflexivity |].
  rewrite List.filter_app, List.map_app, concat_str_app, <- Hc, IHcs. reflexivity.
Qed.

(** ** checkAction *)

(** C2, at the input where the code departs from it. The plan holds one
    click on a Link; the pattern asks for a Button. Without a [description]
    key the assertion fails, as it must; with a [description] key written
    first in the pattern, [checkAction] returns [true] at that key without
    looking at [role] or [target], and the assertion passes. *)
Theorem description_key_ends_matching :
  checkAction Cases.linkAction (Some Cases.buttonPattern) = Ok false
  /\ checkAction Cases.linkAction (Some Cases.describedButtonPattern) = Ok true
  /\ Scenario.passes (VArr [Cases.linkAction]) (Cases.actionTakenTest Cases.buttonPattern) = false
  /\ Scenario.passes (VArr [Cases.linkAction]) (Cases.actionTakenTest Cases.describedButtonPattern)
     = true.
Proof. repeat split; reflexivity. Qed.

(** What [checkAction] decides on an object pattern: every key enumerated
    before the first [description] key is compared, none after it. *)
Lemma checkAction_keys_compared (mine theirs : list (string * value))
    (keys : list string) :
  checkAction_keys (VObj mine) (Some (VObj theirs)) keys
  = Ok (forallb (fun key => strict_eq (assoc key mine) (assoc key theirs))
                (keys_before_description keys)).
Proof.
  induction keys as [|key rest IH]; [reflexivity |].
  cbn [checkAction_keys keys_before_description].
  destruct (String.eqb key "description"); [reflexivity |].
  cbn [get_prop forallb].
  destruct (strict_eq (assoc key mine) (assoc key theirs)); [exact IH | reflexivity].
Qed.

(** C9. With a pattern object that has no keys, [checkAction] accepts every
    action without reading it, so [actionTaken] passes exactly when the plan
    has an action. *)
Theorem empty_pattern_passes_iff_plan_nonempty :
  forall (plan : list value) (effect : option SuccessEffect)
         (descr : option string),
    Scenario.passes (VArr plan)
      {| condition := Some "actionTaken"; testValue := Some (VObj []);
         onSuccess := effect; description := descr |} = true
    <-> plan <> [].
Proof.
  intros plan effect descr. unfold Scenario.passes, Scenario.checkCondition.
  cbn [condition testValue is_str String.eqb Ascii.eqb Bool.eqb iterate].
  destruct plan as [|a rest]; simpl; split; congruence.
Qed.

(** ** Assertion conditions *)

Lemma strict_eq_string (s : string) (v : option value) :
  strict_eq (Some (VStr s)) v = true <-> v = Some (VStr s).
Proof.
  destruct v as [[| b | r | t | items | props]|]; simpl;
    try (split; [discriminate | intros H; discriminate]).
  destruct (String.eqb_spec s t) as [->|Hne]; split; congruence.
Qed.

(** C6. Against a parsed reply [response]: a [responseIsEqual] test passes
    exactly when [testValue] is the string [JSON.stringify(response)]; a
    [responseIncludes] test with a string [testValue] passes exactly when
    that string occurs inside [JSON.stringify(response)]; a test with no
    condition passes. *)
Theorem response_conditions :
  forall (response : value) (effect : option SuccessEffect)
         (descr : option string),
    (forall expected : option value,
        Scenario.passes response
          {| condition := Some "responseIsEqual"; testValue := expected;
             onSuccess := effect; description := descr |} = true
        <-> expected = Some (VStr (JSON_stringify response)))
    /\ (forall needle : string,
          Scenario.passes response
            {| condition := Some "responseIncludes";
               testValue := Some (VStr needle);
               onSuccess := effect; description := descr |} = true
          <-> exists pre post,
                JSON_stringify response = pre +:+ needle +:+ post)
    /\ (forall anything : option value,
          Scenario.passes response
            {| condition := None; testValue := anything;
               onSuccess := effect; description := descr |} = true).
Proof.
  intros response effect descr. split; [| split].
  - intros expected. unfold Scenario.passes, Scenario.checkCondition.
    cbn [condition testValue is_str String.eqb Ascii.eqb Bool.eqb].
    rewrite <- strict_eq_string.
    destruct (strict_eq _ expected); simpl; split; congruence.
  - intros needle. unfold Scenario.passes, Scenario.checkCondition.
    cbn [condition testValue is_str String.eqb Ascii.eqb Bool.eqb
         to_string_opt to_string].
    rewrite <- includes_spec.
    destruct (includes _ needle); simpl; split; congruence.
  - reflexivity.
Qed.

(** ** Conversation Client *)

(** C8. [setup] leaves the history holding exactly the one system message,
    whatever was there before and whatever the priming exchange answers: the
    exchange is made (it decides whether [setup] returns or throws) and its
    reply is not appended. A [send] whose remote exchange succeeds makes that
    exchange on the whole history with the user message already appended,
    appends the reply after it, so that the history grows by exactly two
    messages, and returns the content of the reply. *)
Theorem conversation_history :
  forall (E : Env) (st : state E),
    (forall prompt : string,
        let system := Message "system" prompt in
        let exchange := chat E [system] (world st) in
        setup E prompt st
        = (match fst exchange with
           | Some _ => Ok tt
           | None => Throw RemoteError
           end,
           {| world := snd exchange; messages := [system];
              trace := trace st ++ [EvChat [system]] |}))
    /\ (forall (text : string) (reply : message) (w' : World E),
          let user := Message "user" text in
          chat E (messages st ++ [user]) (world st) = (Some reply, w') ->
          send E text st
          = (Ok (msg_content reply),
             {| world := w'; messages := messages st ++ [user; reply];
                trace := trace st ++ [EvChat (messages st ++ [user])] |})
          /\ length (messages (snd (send E text st)))
             = length (messages st) + 2).
Proof.
  intros E st. split.
  - intros prompt system exchange. subst system exchange.
    unfold setup, mbind, M_bind, bind, set_messages, get_messages, emit, call,
      mret, M_ret, ret. simpl.
    destruct (chat E _ (world st)) as [[reply|] w']; reflexivity.
  - intros text reply w' user Hchat. subst user.
    assert (Hsend : send E text st
      = (Ok (msg_content reply),
         {| world := w';
            messages := messages st ++ [Message "user" text; reply];
            trace := trace st ++ [EvChat (messages st ++ [Message "user" text])] |})).
    { unfold send, mbind, M_bind, bind, set_messages, get_messages, emit, call,
        mret, M_ret, ret. simpl. rewrite Hchat. simpl.
      now rewrite <- app_assoc. }
    split; [exact Hsend |].
    rewrite Hsend. simpl. rewrite length_app. simpl. lia.
Qed.

(** ** What an action adds to the trace *)

Section Appends.

Context {E : Env} (P : event -> Prop).

Lemma appends_ret {A} (a : A) : appends P (mret a : M E A).
Proof. intros st. exists []. simpl. now rewrite app_nil_r. Qed.

Lemma appends_throw {A} (e : exn) : appends P (throw E e : M E A).
Proof. intros st. exists []. simpl. now rewrite app_nil_r. Qed.

Lemma appends_lift {A} (r : result A) : appends P (lift E r).
Proof. intros st. exists []. simpl. now rewrite app_nil_r. Qed.

Lemma appends_emit (e : event) : P e -> appends P (emit E e).
Proof. intros He st. exists [e]. simpl. auto. Qed.

Lemma appends_log (text : string) (args : list string) :
  P (EvLog text args) -> appends P (log E text args).
Proof. apply appends_emit. Qed.

Lemma appends_call {A} (e : exn) (f : World E -> option A * World E) :
  appends P (call E e f).
Proof.
  intros st. exists []. unfold call. destruct (f (world st)) as [[a|] w];
    simpl; now rewrite app_nil_r.
Qed.

Lemma appends_call_unit (f : World E -> bool * World E) :
  appends P (call_unit E f).
Proof. apply appends_call. Qed.

Lemma appends_bind {A B} (m : M E A) (k : A -> M E B) :
  appends P m -> (forall a, appends P (k a)) -> appends P (m ≫= k).
Proof.
  intros Hm Hk st. unfold mbind, M_bind, bind.
  destruct (Hm st) as [tr1 [H1 F1]].
  destruct (m st) as [[a|e] st1]; simpl in *.
  - destruct (Hk a st1) as [tr2 [H2 F2]]. exists (tr1 ++ tr2).
    rewrite H2, H1, app_assoc. split; [reflexivity | now apply Forall_app].
  - exists tr1. auto.
Qed.

Lemma appends_try_catch {A} (m h : M E A) :
  appends P m -> appends P h -> appends P (try_catch E m h).
Proof.
  intros Hm Hh st. unfold try_catch.
  destruct (Hm st) as [tr1 [H1 F1]].
  destruct (m st) as [[a|e] st1]; simpl in *.
  - exists tr1. auto.
  - destruct (Hh st1) as [tr2 [H2 F2]]. exists (tr1 ++ tr2).
    rewrite H2, H1, app_assoc. split; [reflexivity | now apply Forall_app].
Qed.

End Appends.

(** Discharges [appends P m] for a straight-line action, when [P] computes
    to [True] on the events emitted. *)
Ltac appends_auto :=
  repeat first
    [ apply appends_ret | apply appends_throw | apply appends_lift
    | apply appends_call_unit | apply appends_call
    | apply appends_log; exact I | apply appends_emit; exact I
    | apply appends_bind; [| intros ?] | apply appends_try_catch
    | match goal with
      | |- appends _ (if ?b then _ else _) => destruct b
      | |- appends _ (match ?x with _ => _ end) => destruct x
      end ].

Lemma in_step_no_parse (tr : list event) :
  Forall in_step tr -> parse_attempts tr = [] /\ sent_messages tr = [].
Proof.
  induction 1 as [|e tr He _ [IH1 IH2]]; [split; reflexivity |].
  unfold parse_attempts, sent_messages in *.
  destruct e; simpl in *; try contradiction; auto.
Qed.

Lemma typeValue_in_step E el v : appends in_step (typeValue E el v).
Proof. unfold typeValue. appends_auto. Qed.

Lemma clickElement_in_step E el : appends in_step (clickElement E el).
Proof. unfold clickElement. appends_auto. Qed.

Lemma runEffect_in_step E narrate eff : appends in_step (runEffect E narrate eff).
Proof.
  unfold runEffect, destructure_first, value_toString.
  appends_auto;
    first [apply typeValue_in_step | apply clickElement_in_step].
Qed.

Lemma resolve_in_step E a : appends in_step (resolve E a).
Proof. unfold resolve. appends_auto. Qed.

Lemma performActions_in_step E plan :
  appends in_step (Scenario.performActions E plan).
Proof.
  induction plan as [|a rest IH]; cbn [Scenario.performActions].
  - apply appends_ret.
  - apply appends_bind; [| intros _; exact IH].
    unfold Scenario.performAction, handle_missing, handle_click, handle_type.
    apply appends_bind; [apply resolve_in_step | intros element].
    appends_auto;
      first [apply typeValue_in_step | apply clickElement_in_step].
Qed.

Lemma evaluate_in_step E response tests step :
  appends in_step (Scenario.evaluate E response tests step).
Proof.
  induction tests as [|test rest IH]; cbn [Scenario.evaluate].
  - apply appends_ret.
  - destruct (Scenario.checkCondition response test).
    + apply appends_bind; [apply appends_log; exact I | intros _].
      apply appends_bind; [apply runEffect_in_step | intros _; exact IH].
    + appends_auto.
Qed.

(** ** Action Plan Parser *)

Lemma setup_run (E : Env) (prompt : string) (st : state E) :
  setup E prompt st
  = (match fst (chat E [Message "system" prompt] (world st)) with
     | Some _ => Ok tt
     | None => Throw RemoteError
     end,
     {| world := snd (chat E [Message "system" prompt] (world st));
        messages := [Message "system" prompt];
        trace := trace st ++ [EvChat [Message "system" prompt]] |}).
Proof.
  unfold setup, mbind, M_bind, bind, set_messages, get_messages, emit, call,
    mret, M_ret, ret. simpl.
  destruct (chat E _ (world st)) as [[reply|] w']; reflexivity.
Qed.

Lemma send_run (E : Env) (text : string) (st : state E) :
  send E text st
  = let history := messages st ++ [Message "user" text] in
    match chat E history (world st) with
    | (Some reply, w') =>
        (Ok (msg_content reply),
         {| world := w'; messages := history ++ [reply];
            trace := trace st ++ [EvChat history] |})
    | (None, w') =>
        (Throw RemoteError,
         {| world := w'; messages := history;
            trace := trace st ++ [EvChat history] |})
    end.
Proof.
  unfold send, mbind, M_bind, bind, set_messages, get_messages, emit, call,
    mret, M_ret, ret. simpl.
  destruct (chat E _ (world st)) as [[reply|] w']; reflexivity.
Qed.

(** [askPlan], path by path. *)
Lemma askPlan_run (E : Env) (sp sro : string) (instr : option string)
    (st : state E) :
  askPlan E sp sro instr st
  = match setup E sp st with
    | (Throw e, st1) => (Throw e, st1)
    | (Ok _, st1) =>
        match send E (firstPrompt sro instr) st1 with
        | (Throw e, st2) => (Throw e, st2)
        | (Ok r1, st2) =>
            match JSON_parse E r1 with
            | Some plan => (Ok plan, extend st2 [EvParse r1])
            | None =>
                match send E (correctivePrompt sro instr)
                           (extend st2 [EvParse r1]) with
                | (Throw e, st3) => (Throw e, st3)
                | (Ok r2, st3) =>
                    match JSON_parse E r2 with
                    | Some plan => (Ok plan, extend st3 [EvParse r2])
                    | None => (Throw ModelContractViolation,
                               extend st3 [EvParse r2])
                    end
                end
            end
        end
    end.
Proof.
  unfold askPlan. unfold mbind at 1, M_bind at 1, bind at 1.
  destruct (setup E sp st) as [[[]|e] st1]; [| reflexivity].
  unfold mbind at 1, M_bind at 1, bind at 1.
  destruct (send E (firstPrompt sro instr) st1) as [[r1|e] st2]; [| reflexivity].
  unfold try_catch at 1, parse at 1.
  unfold mbind at 1, M_bind at 1, bind at 1, emit at 1.
  destruct (JSON_parse E r1) as [plan|]; [reflexivity |].
  cbn [throw]. unfold mbind at 1, M_bind at 1, bind at 1.
  change {| world := world st2; messages := messages st2;
            trace := trace st2 ++ [EvParse r1] |}
    with (extend st2 [EvParse r1]).
  destruct (send E (correctivePrompt sro instr) (extend st2 [EvParse r1]))
    as [[r2|e] st3]; [| reflexivity].
  unfold try_catch, parse, mbind, M_bind, bind, emit.
  destruct (JSON_parse E r2) as [plan|]; reflexivity.
Qed.

(** The trace of [askPlan] holds at most two parse attempts and at most two
    sent messages. *)
Lemma askPlan_bounded (E : Env) (sp sro : string) (instr : option string)
    (st : state E) :
  exists tr,
    trace (snd (askPlan E sp sro instr st)) = trace st ++ tr
    /\ length (parse_attempts tr) <= 2 /\ length (sent_messages tr) <= 2.
Proof.
  rewrite askPlan_run, setup_run.
  destruct (fst (chat E [Message "system" sp] (world st))).
  2:{ eexists. split; [reflexivity | simpl; lia]. }
  rewrite send_run. cbn [messages world trace].
  destruct (chat E _ _) as [[m1|] w1].
  2:{ eexists. simpl. rewrite <- app_assoc. split; [reflexivity | simpl; lia]. }
  destruct (JSON_parse E (msg_content m1)).
  { eexists. simpl. rewrite <- !app_assoc. split; [reflexivity | simpl; lia]. }
  rewrite send_run. cbn [messages world trace extend].
  destruct (chat E _ _) as [[m2|] w2].
  2:{ eexists. simpl. rewrite <- !app_assoc. split; [reflexivity |].
      cbn. lia. }
  destruct (JSON_parse E (msg_content m2));
    (eexists; simpl; rewrite <- !app_assoc; split; [reflexivity |];
     cbn; lia).
Qed.

Lemma bind_run {E : Env} {A B} (m : M E A) (k : A -> M E B) (st : state E) :
  (m ≫= k) st
  = match m st with
    | (Ok a, st') => k a st'
    | (Throw e, st') => (Throw e, st')
    end.
Proof. reflexivity. Qed.

Lemma rest_of_runScenario_in_step (E : Env) (response : value)
    (step : Step (list Assertion)) :
  appends in_step
    (log E "Performing actions on the page:" [];;
     plan ← lift E (iterate response);
     Scenario.performActions E plan;;
     log E "Test results:" [];;
     Scenario.evaluate E response (success step) step).
Proof.
  apply appends_bind; [apply appends_log; exact I | intros _].
  apply appends_bind; [apply appends_lift | intros plan].
  apply appends_bind; [apply performActions_in_step | intros _].
  apply appends_bind; [apply appends_log; exact I | intros _].
  apply evaluate_in_step.
Qed.

(** After [askPlan] nothing is asked of the model and nothing is parsed. *)
Lemma runScenario_after_ask (E : Env) (sp sro : string)
    (step : Step (list Assertion)) (st : state E) :
  let ask := askPlan E sp sro (instruction step) st in
  let run := Scenario.runScenario E sp sro step st in
  match fst ask with
  | Throw e => run = (Throw e, snd ask)
  | Ok _ =>
      exists tr, trace (snd run) = trace (snd ask) ++ tr
                 /\ parse_attempts tr = [] /\ sent_messages tr = []
  end.
Proof.
  intros ask run. subst ask run. unfold Scenario.runScenario.
  rewrite bind_run.
  destruct (askPlan E sp sro (instruction step) st) as [[response|e] st1];
    [| reflexivity].
  cbn [fst snd].
  destruct (rest_of_runScenario_in_step E response step st1) as [tr [Htr Hoff]].
  exists tr. split; [exact Htr | now apply in_step_no_parse].
Qed.

Lemma runScenario_trace_of_ask (E : Env) (sp sro : string)
    (step : Step (list Assertion)) (st : state E) (tr : list event) :
  trace (snd (askPlan E sp sro (instruction step) st)) = trace st ++ tr ->
  exists tr', trace (snd (Scenario.runScenario E sp sro step st)) = trace st ++ tr'
              /\ parse_attempts tr' = parse_attempts tr
              /\ sent_messages tr' = sent_messages tr.
Proof.
  intros Hask. pose proof (runScenario_after_ask E sp sro step st) as H.
  cbv zeta in H.
  destruct (fst (askPlan E sp sro (instruction step) st)).
  - destruct H as [tr2 [H [Hp Hs]]]. exists (tr ++ tr2).
    rewrite H, Hask, app_assoc. unfold parse_attempts, sent_messages in *.
    rewrite !omap_app, Hp, Hs, !app_nil_r. auto.
  - exists tr. rewrite H. auto.
Qed.

(** C1. In one step: the whole run of [runScenario] holds at most two parse
    attempts and at most two sent messages. When the first reply [r1] parses,
    it is the only text parsed, the first prompt is the only message sent,
    and the parsed value is the plan. When [r1] does not parse, the messages
    sent are exactly the first prompt and the corrective prompt; when the
    reply [r2] to the latter arrives, the texts parsed are exactly [r1] and
    [r2]; if [r2] parses its value is the plan, and if it does not the step
    ends by throwing the unrecoverable error. *)
Theorem plan_parsing_one_retry :
  forall (E : Env) (sp sro : string) (step : Step (list Assertion))
         (st : state E),
    let p1 := firstPrompt sro (instruction step) in
    let p2 := correctivePrompt sro (instruction step) in
    let ask := askPlan E sp sro (instruction step) st in
    let run := Scenario.runScenario E sp sro step st in
    (exists tr, trace (snd run) = trace st ++ tr
                /\ length (parse_attempts tr) <= 2
                /\ length (sent_messages tr) <= 2)
    /\ (forall st1 r1 st2,
          setup E sp st = (Ok tt, st1) ->
          send E p1 st1 = (Ok r1, st2) ->
          (forall plan,
              JSON_parse E r1 = Some plan ->
              ask = (Ok plan, extend st2 [EvParse r1])
              /\ exists tr, trace (snd run) = trace st ++ tr
                            /\ parse_attempts tr = [r1]
                            /\ sent_messages tr = [p1])
          /\ (JSON_parse E r1 = None ->
              (exists tr, trace (snd run) = trace st ++ tr
                          /\ sent_messages tr = [p1; p2])
              /\ forall r2 st3,
                   send E p2 (extend st2 [EvParse r1]) = (Ok r2, st3) ->
                   (exists tr, trace (snd run) = trace st ++ tr
                               /\ parse_attempts tr = [r1; r2])
                   /\ (forall plan,
                          JSON_parse E r2 = Some plan ->
                          ask = (Ok plan, extend st3 [EvParse r2]))
                   /\ (JSON_parse E r2 = None ->
                       run = (Throw ModelContractViolation,
                              extend st3 [EvParse r2])))).
Proof.
  intros E sp sro step st p1 p2 ask run. split.
  { destruct (askPlan_bounded E sp sro (instruction step) st)
      as [tr [Htr [Hp Hs]]].
    destruct (runScenario_trace_of_ask E sp sro step st tr Htr)
      as [tr' [Htr' [Hp' Hs']]].
    exists tr'. rewrite Hp', Hs'. auto. }
  intros st1 r1 st2 Hsetup Hsend1.
  assert (Hask := askPlan_run E sp sro (instruction step) st).
  fold ask p1 p2 in Hask. rewrite Hsetup, Hsend1 in Hask.
  (* the states reached by [setup] and the first [send] *)
  rewrite setup_run in Hsetup. injection Hsetup as _ Hst1. subst st1.
  rewrite send_run in Hsend1. cbn [messages world trace] in Hsend1.
  destruct (chat E _ _) as [[m1|] w1] in Hsend1; [| discriminate].
  injection Hsend1 as Hr1 Hst2. subst r1 st2.
  split.
  - intros plan Hparse. rewrite Hparse in Hask. split; [exact Hask |].
    edestruct (runScenario_trace_of_ask E sp sro step st) as [tr [H1 [H2 H3]]].
    { fold ask. rewrite Hask. simpl. rewrite <- !app_assoc. reflexivity. }
    exists tr. rewrite H2, H3. auto.
  - intros Hparse. rewrite Hparse in Hask. split.
    + rewrite send_run in Hask. cbn [messages world trace extend] in Hask.
      destruct (chat E _ _) as [[m2|] w2] in Hask;
        [destruct (JSON_parse E (msg_content m2)) |];
        (edestruct (runScenario_trace_of_ask E sp sro step st)
          as [tr [H1 [H2 H3]]];
         [ fold ask; rewrite Hask; simpl; rewrite <- !app_assoc; reflexivity
         | exists tr; rewrite H3; auto ]).
    + intros r2 st3 Hsend2. rewrite Hsend2 in Hask.
      rewrite send_run in Hsend2. cbn [messages world trace extend] in Hsend2.
      destruct (chat E _ _) as [[m2|] w2] in Hsend2; [| discriminate].
      injection Hsend2 as Hr2 Hst3. subst r2 st3.
      split; [| split].
      * destruct (JSON_parse E (msg_content m2));
          (edestruct (runScenario_trace_of_ask E sp sro step st)
            as [tr [H1 [H2 H3]]];
           [ fold ask; rewrite Hask; simpl; rewrite <- !app_assoc; reflexivity
           | exists tr; rewrite H2; auto ]).
      * intros plan Hparse2. now rewrite Hparse2 in Hask.
      * intros Hparse2. rewrite Hparse2 in Hask.
        pose proof (runScenario_after_ask E sp sro step st) as Hrun.
        cbv zeta in Hrun. fold ask run in Hrun. rewrite Hask in Hrun.
        exact Hrun.
Qed.

(** ** Element Resolver *)

Lemma find_no_match {A} (f : A -> bool) (l : list A) :
  Forall (fun x => f x = false) l -> List.find f l = None.
Proof.
  induction 1 as [|x l Hx _ IH]; [reflexivity |].
  simpl. now rewrite Hx.
Qed.

Lemma resolve_not_found (E : Env) (props : list (string * value))
    (st : state E) (els : list element) :
  let selector := roleMap !! to_string_opt (assoc "role" props) in
  querySelectorAll E selector (world st) = Some els ->
  Forall (fun el => target_matches (to_string_opt (assoc "target" props)) el
                    = false) els ->
  resolve E (VObj props) st = (Ok None, extend st [EvQuery selector]).
Proof.
  intros selector Hq Hno. unfold resolve.
  cbn [get_prop]. unfold mbind, M_bind, bind, lift, emit, call, mret, M_ret, ret.
  cbn [world messages trace]. fold selector. rewrite Hq.
  rewrite (find_no_match _ _ Hno). reflexivity.
Qed.


(** The action loop never prints "Element not found": no handle is falsy. *)
Lemma action_loop_never_reports_missing (E : Env) (plan : list value) :
  appends silent_on_missing (Scenario.performActions E plan).
Proof.
  induction plan as [|a rest IH]; cbn [Scenario.performActions].
  - apply appends_ret.
  - apply appends_bind; [| intros _; exact IH].
    unfold Scenario.performAction, handle_missing, handle_click, handle_type,
      resolve, clickElement, typeValue.
    appends_auto.
Qed.

(** C5, at the input where the code departs from it. The model proposes two
    clicks: one on a role that has no entry in the table, one on the button
    of the page. When that role is ["constructor"], [roleMap[role]] is the
    member every object inherits, the page rejects it as a selector, and the
    rejection of [evaluateHandle] is outside the [try]: the step ends with
    that exception and the second action is never reached. When the role is
    ["Slider"], the query finds nothing and the loop does go on to click the
    button; but the handle on nothing is truthy, so what is logged is a
    failed click, never "Element not found". *)
Theorem inherited_role_aborts_the_step :
  let run first :=
    Scenario.runScenario Strict.env "" "" Cases.chattyStep
      (Strict.start (Prototype.page (Prototype.plan first))) in
  entries roleMap !! "constructor" = None
  /\ entries roleMap !! "Slider" = None
  /\ fst (run Prototype.constructorAction) = Throw PageError
  /\ page_events (trace (snd (run Prototype.constructorAction)))
     = [EvQuery (Some "function Object() { [native code] }")]
  /\ fst (run (VObj Cases.sliderAction)) = Ok (Some "_end")
  /\ page_events (trace (snd (run (VObj Cases.sliderAction))))
     = [EvQuery None; EvQuery (Some "button"); EvClick Cases.goButton]
  /\ List.filter is_log (trace (snd (run (VObj Cases.sliderAction))))
     = [EvLog "Performing actions on the page:" [];
        EvLog "Clicking on element" ["Slider"; "Go"];
        EvLog "Failed action on element" ["click"; "Slider"; "Go"];
        EvLog "Clicking on element" ["Button"; "Go"];
        EvLog "Test results:" []].
Proof. cbv zeta. repeat split; vm_compute; reflexivity. Qed.

(** ** Assertion Evaluator *)

Lemma evaluate_nil (E : Env) (response : value) (step : Step (list Assertion))
    (st : state E) :
  Scenario.evaluate E response [] step st = (Ok (next step), st).
Proof. reflexivity. Qed.

(** A failing test ends the step with ["_failed"]: its effect is not run,
    the tests after it are not evaluated, [next] is not read. *)
Lemma evaluate_failing_test (E : Env) (response : value) (test : Assertion)
    (rest : list Assertion) (step : Step (list Assertion)) (st : state E) :
  Scenario.passes response test = false ->
  Scenario.evaluate E response (test :: rest) step st
  = (Ok (Some "_failed"),
     extend st [EvLog "failed." [str_opt (description test)]]).
Proof.
  unfold Scenario.passes. cbn [Scenario.evaluate].
  destruct (Scenario.checkCondition response test); [discriminate |].
  reflexivity.
Qed.

(** A passing test runs its own effect, and the next test is evaluated only
    once that effect has returned; an effect that throws ends the step. *)
Lemma evaluate_passing_test (E : Env) (response : value) (test : Assertion)
    (rest : list Assertion) (step : Step (list Assertion)) (st : state E) :
  Scenario.passes response test = true ->
  Scenario.evaluate E response (test :: rest) step st
  = match runEffect E false (onSuccess test)
            (extend st [EvLog "succeeded." [str_opt (description test)]]) with
    | (Ok _, st') => Scenario.evaluate E response rest step st'
    | (Throw e, st') => (Throw e, st')
    end.
Proof.
  unfold Scenario.passes. cbn [Scenario.evaluate].
  destruct (Scenario.checkCondition response test); [| discriminate].
  intros _. reflexivity.
Qed.

(** The [click] effect never reaches its click: the array destructuring of
    what [waitForSelector] resolves to throws. *)
Lemma click_effect_throws (E : Env) (narrate : bool) (eff : SuccessEffect)
    (st : state E) :
  eff_action eff = Some "click" ->
  exists e, runEffect E narrate (Some eff) st
            = (Throw e,
               {| world := snd (waitForSelector E (eff_selector eff) (world st));
                  messages := messages st;
                  trace := trace st ++ [EvWaitForSelector (eff_selector eff)] |}).
Proof.
  intros Hact. unfold runEffect. cbn [mbind option_bind]. rewrite Hact.
  cbn [is_str String.eqb Ascii.eqb Bool.eqb].
  unfold mbind, M_bind, bind, emit, call, destructure_first, throw.
  cbn [world messages trace].
  destruct (waitForSelector E (eff_selector eff) (world st)) as [[h|] w];
    eexists; reflexivity.
Qed.

(** C3, at the input where the code departs from it. The step has one test,
    with no condition, whose effect is a [click] on a button that is on the
    page; the plan is empty. The test passes, yet the step does not return
    its [next]: the effect throws at the destructuring before any click, and
    [runScenario] ends with that exception. The same step with an [input]
    effect of type [radio] on the same selector clicks the button and
    returns [next]. *)
Theorem click_effect_aborts_the_step :
  let run eff := Scenario.runScenario Demo.env "" ""
                   (Cases.effectStep eff) (Demo.start (Cases.goPage "[]")) in
  Scenario.passes (VArr []) (Cases.unconditional Cases.clickEffect) = true
  /\ fst (run Cases.clickEffect) = Throw TypeError
  /\ page_events (trace (snd (run Cases.clickEffect)))
     = [EvWaitForSelector (Some "button")]
  /\ fst (run Cases.radioEffect) = Ok (Some "_end")
  /\ page_events (trace (snd (run Cases.radioEffect)))
     = [EvWaitForSelector (Some "button"); EvClick Cases.goButton].
Proof. repeat split; vm_compute; reflexivity. Qed.

(** ** The two drivers *)

(** The single-assertion driver decides the condition first: when it does
    not hold, the step ends there and the plan is never iterated. *)
Lemma server_failing_condition (E : Env) (sp sro : string)
    (step : Step (option Assertion)) (name : option string)
    (st st1 : state E) (response : value) :
  askPlan E sp sro (instruction step) st = (Ok response, st1) ->
  Server.conditionHolds response (success step) = false ->
  Server.runScenario E sp sro step name st
  = (Ok (Some "_failed"), extend st1 [EvLog "Step failed." []]).
Proof.
  intros Hask Hcond. unfold Server.runScenario.
  rewrite bind_run, Hask, Hcond. reflexivity.
Qed.

(** The multi-assertion driver runs the whole action loop, and only then
    starts on the tests. *)
Lemma scenario_actions_before_tests (E : Env) (sp sro : string)
    (step : Step (list Assertion)) (st st1 st2 : state E)
    (response : value) (plan : list value) :
  askPlan E sp sro (instruction step) st = (Ok response, st1) ->
  iterate response = Ok plan ->
  Scenario.performActions E plan
    (extend st1 [EvLog "Performing actions on the page:" []]) = (Ok tt, st2) ->
  Scenario.runScenario E sp sro step st
  = Scenario.evaluate E response (success step) step
      (extend st2 [EvLog "Test results:" []]).
Proof.
  intros Hask Hit Hact. unfold Scenario.runScenario.
  rewrite bind_run, Hask, bind_run. unfold log at 1, emit at 1.
  rewrite bind_run. unfold lift at 1. rewrite Hit.
  rewrite bind_run.
  change {| world := world st1; messages := messages st1;
            trace := trace st1 ++ [EvLog "Performing actions on the page:" []] |}
    with (extend st1 [EvLog "Performing actions on the page:" []]).
  rewrite Hact. rewrite bind_run. reflexivity.
Qed.

(** C10. There is a step, the same but for the shape of [success], on which
    the two drivers part: the model proposes one click, the declared
    condition ([responseIsEqual] against the empty plan) fails; the
    single-assertion driver returns ["_failed"] without touching the page,
    the multi-assertion driver resolves and clicks the button, and only then
    evaluates the test and returns ["_failed"]. *)
Theorem drivers_differ_on_failing_step :
  exists (reply : string) (plan : list value) (test : Assertion),
    let st := Demo.start (Cases.goPage reply) in
    let single := Server.runScenario Demo.env "" ""
                    (Cases.stepWith (Some test)) (Some "_start") st in
    let multi := Scenario.runScenario Demo.env "" ""
                   (Cases.stepWith [test]) st in
    fst (askPlan Demo.env "" "" (Some "press go") st) = Ok (VArr plan)
    /\ plan = [Cases.clickGo]
    /\ Server.conditionHolds (VArr plan) (Some test) = false
    /\ Scenario.passes (VArr plan) test = false
    /\ fst single = Ok (Some "_failed")
    /\ page_events (trace (snd single)) = []
    /\ fst multi = Ok (Some "_failed")
    /\ page_events (trace (snd multi))
       = [EvQuery (Some "button"); EvClick Cases.goButton]
    /\ exists before,
         trace (snd multi)
         = before ++ [EvLog "Test results:" [];
                      EvLog "failed." ["nothing to do"]]
         /\ page_events before = page_events (trace (snd multi)).
Proof.
  exists (JSON_stringify (VArr [Cases.clickGo])), [Cases.clickGo],
    Cases.expectsEmptyPlan.
  cbv zeta. repeat split; try (vm_compute; reflexivity).
  match goal with
  | |- exists before, ?tr = _ /\ _ => exists (removelast (removelast tr))
  end.
  split; vm_compute; reflexivity.
Qed.

(** ** Scenario State Machine *)

Lemma visits_app (tr1 tr2 : list event) :
  visits (tr1 ++ tr2) = visits tr1 + visits tr2.
Proof. unfold visits. now rewrite List.filter_app, length_app. Qed.

Lemma no_snapshot_visits (tr : list event) :
  Forall no_snapshot tr -> visits tr = 0.
Proof.
  induction 1 as [|e tr He _ IH]; [reflexivity |].
  unfold visits in *. destruct e; simpl in *; try contradiction; exact IH.
Qed.

Lemma in_step_no_snapshot (tr : list event) :
  Forall in_step tr -> Forall no_snapshot tr.
Proof.
  induction 1 as [|e tr He _ IH]; constructor; [| exact IH].
  destruct e; simpl in *; auto.
Qed.

Lemma bounded_ret {E : Env} (n : nat) (step : option string) :
  bounded_run n (mret (Some step) : M E _).
Proof.
  intros st. split; [discriminate |].
  exists []. simpl. rewrite app_nil_r. split; [reflexivity | cbn; lia].
Qed.

Lemma bounded_bind {E : Env} {A} (n : nat) (Q : A -> Prop) (m : M E A)
    (k : A -> M E (option (option string))) :
  appends no_snapshot m ->
  (forall st a, fst (m st) = Ok a -> Q a) ->
  (forall a, Q a -> bounded_run n (k a)) ->
  bounded_run n (m ≫= k).
Proof.
  intros Hm HQ Hk st. rewrite bind_run.
  destruct (Hm st) as [tr1 [H1 F1]]. specialize (HQ st).
  destruct (m st) as [[a|e] st1]; simpl in *.
  - destruct (Hk a (HQ a eq_refl) st1) as [Hne [tr2 [H2 Hv]]].
    split; [exact Hne |]. exists (tr1 ++ tr2).
    rewrite H2, H1, app_assoc, visits_app, (no_snapshot_visits tr1 F1).
    split; [reflexivity | lia].
  - split; [discriminate |]. exists tr1.
    rewrite (no_snapshot_visits tr1 F1). split; [exact H1 | lia].
Qed.

Lemma bounded_after_snapshot {E : Env} (n : nat)
    (k : M E (option (option string))) :
  bounded_run n k -> bounded_run (S n) (emit E EvSnapshot;; k).
Proof.
  intros Hk st. rewrite bind_run. cbn [emit].
  destruct (Hk {| world := world st; messages := messages st;
                  trace := trace st ++ [EvSnapshot] |}) as [Hne [tr [Htr Hv]]].
  split; [exact Hne |]. exists (EvSnapshot :: tr).
  rewrite Htr. cbn [trace]. rewrite <- app_assoc. split; [reflexivity |].
  change (EvSnapshot :: tr) with ([EvSnapshot] ++ tr).
  rewrite visits_app. cbn. lia.
Qed.

Lemma bounded_mono {E : Env} (n n' : nat) (m : M E (option (option string))) :
  n <= n' -> bounded_run n m -> bounded_run n' m.
Proof.
  intros Hle Hm st. destruct (Hm st) as [Hne [tr [Htr Hv]]].
  split; [exact Hne |]. exists tr. split; [exact Htr | lia].
Qed.

Lemma askPlan_no_snapshot (E : Env) (sp sro : string) (instr : option string) :
  appends no_snapshot (askPlan E sp sro instr).
Proof.
  unfold askPlan, setup, send, parse, set_messages, get_messages.
  appends_auto; intros st; exists []; simpl; now rewrite app_nil_r.
Qed.

Lemma appends_weaken {E : Env} {A} (P Q : event -> Prop) (m : M E A) :
  (forall tr, Forall P tr -> Forall Q tr) -> appends P m -> appends Q m.
Proof.
  intros HPQ Hm st. destruct (Hm st) as [tr [Htr F]]. exists tr. auto.
Qed.

Lemma runScenario_no_snapshot (E : Env) (sp sro : string)
    (step : Step (list Assertion)) :
  appends no_snapshot (Scenario.runScenario E sp sro step).
Proof.
  unfold Scenario.runScenario.
  apply appends_bind; [apply askPlan_no_snapshot | intros response].
  apply (appends_weaken in_step); [apply in_step_no_snapshot |].
  apply rest_of_runScenario_in_step.
Qed.

(** A step hands back ["_failed"] or its own [next], nothing else. *)
Lemma evaluate_result (E : Env) (response : value) (tests : list Assertion)
    (step : Step (list Assertion)) (st : state E) (s : option string) :
  fst (Scenario.evaluate E response tests step st) = Ok s ->
  s = Some "_failed" \/ s = next step.
Proof.
  revert st. induction tests as [|test rest IH]; intros st.
  - cbn. intros [= <-]. now right.
  - cbn [Scenario.evaluate].
    destruct (Scenario.checkCondition response test).
    + rewrite bind_run. cbn [log emit]. rewrite bind_run.
      destruct (runEffect E false (onSuccess test) _) as [[[]|e] st1].
      * apply IH.
      * discriminate.
    + cbn. intros [= <-]. now left.
Qed.

Lemma runScenario_result (E : Env) (sp sro : string)
    (step : Step (list Assertion)) (st : state E) (s : option string) :
  fst (Scenario.runScenario E sp sro step st) = Ok s ->
  s = Some "_failed" \/ s = next step.
Proof.
  unfold Scenario.runScenario. rewrite bind_run.
  destruct (askPlan E sp sro (instruction step) st) as [[response|e] st1];
    [| discriminate].
  rewrite bind_run. cbn [log emit]. rewrite bind_run. unfold lift at 1.
  destruct (iterate response) as [plan|e]; [| discriminate].
  rewrite bind_run.
  destruct (Scenario.performActions E plan _) as [[[]|e] st2]; [| discriminate].
  rewrite bind_run. cbn [log emit]. apply evaluate_result.
Qed.

Lemma continues_failed : Scenario.continues (Some "_failed") = false.
Proof. reflexivity. Qed.

Lemma runMember_no_snapshot (E : Env) (sp sro : string) :
  appends no_snapshot (Scenario.runMember E sp sro).
Proof.
  unfold Scenario.runMember.
  apply appends_bind; [apply askPlan_no_snapshot | intros response].
  apply appends_bind; [apply appends_log; exact I | intros _].
  apply appends_bind; [apply appends_lift | intros plan].
  apply appends_bind;
    [apply (appends_weaken in_step);
       [apply in_step_no_snapshot | apply performActions_in_step]
    | intros _].
  apply appends_bind; [apply appends_log; exact I | intros _].
  apply appends_throw.
Qed.

(** A member of [Object.prototype] taken for a step never hands a name
    back: its run ends in an exception. *)
Lemma runMember_never_returns (E : Env) (sp sro : string) (st : state E)
    (s : option string) :
  fst (Scenario.runMember E sp sro st) <> Ok s.
Proof.
  unfold Scenario.runMember. rewrite bind_run.
  destruct (askPlan E sp sro None st) as [[response|e] st1]; [| discriminate].
  rewrite bind_run. cbn [log emit]. rewrite bind_run. unfold lift at 1.
  destruct (iterate response) as [plan|e]; [| discriminate].
  rewrite bind_run.
  destruct (Scenario.performActions E plan _) as [[[]|e] st2]; [| discriminate].
  rewrite bind_run. cbn [log emit throw]. discriminate.
Qed.

(** The loop, started on a name whose chain enters [n] names, with more than
    [n] iterations allowed. *)
Lemma main_loop_bounded (E : Env) (sp : string)
    (steps : gmap string (Step (list Assertion))) (step : option string)
    (n : nat) :
  path_to_terminal steps step n ->
  forall fuel currentUrl,
    n < fuel ->
    bounded_run n (Scenario.main_loop E sp fuel steps currentUrl step).
Proof.
  induction 1 as [step Hstop | step Hgo Hnone Hown | step Hgo Hnone Hinh
                  | step so n Hgo Hsome Hpath IH];
    intros fuel currentUrl Hfuel.
  - destruct fuel; cbn [Scenario.main_loop]; rewrite Hstop; apply bounded_ret.
  - destruct fuel as [|fuel]; [lia |].
    cbn [Scenario.main_loop]. rewrite Hgo, Hnone, Hown.
    cbn [negb mbind option_bind truthy_str].
    apply (bounded_bind 0 (fun _ => True)); [apply appends_ret | auto |].
    intros url' _. destruct (negb (truthy_str url')).
    + apply (bounded_bind 0 (fun _ => True));
        [apply appends_log; exact I | auto | intros; apply bounded_ret].
    + apply (bounded_bind 0 (fun _ => True));
        [apply appends_log; exact I | auto | intros; apply bounded_ret].
  - destruct fuel as [|fuel]; [lia |].
    cbn [Scenario.main_loop]. rewrite Hgo, Hnone, Hinh.
    cbn [negb mbind option_bind truthy_str].
    apply (bounded_bind 1 (fun _ => True)); [apply appends_ret | auto |].
    intros url' _. destruct (negb (truthy_str url')).
    { apply (bounded_bind 1 (fun _ => True));
        [apply appends_log; exact I | auto | intros; apply bounded_ret]. }
    apply (bounded_bind 1 (fun _ => True));
      [apply appends_log; exact I | auto | intros _ _].
    apply bounded_after_snapshot.
    apply (bounded_bind 0 (fun _ => True)); [apply appends_call | auto |].
    intros accessibilityTree _.
    apply (bounded_bind 0 (fun _ => False)).
    + apply runMember_no_snapshot.
    + intros st s Hs. exact (runMember_never_returns E sp _ st s Hs).
    + intros s [].
  - destruct fuel as [|fuel]; [lia |].
    cbn [Scenario.main_loop]. rewrite Hgo, Hsome. cbn [negb].
    apply (bounded_bind (S n) (fun _ => True)); [| auto |].
    { destruct (truthy_str (Some so ≫= url)); appends_auto. }
    intros url' _. destruct (negb (truthy_str url')).
    { apply (bounded_bind (S n) (fun _ => True));
        [apply appends_log; exact I | auto | intros; apply bounded_ret]. }
    apply (bounded_bind (S n) (fun _ => True));
      [apply appends_log; exact I | auto | intros _ _].
    apply bounded_after_snapshot.
    apply (bounded_bind n (fun _ => True)); [apply appends_call | auto |].
    intros accessibilityTree _.
    apply (bounded_bind n (fun s => s = Some "_failed" \/ s = next so)).
    + apply runScenario_no_snapshot.
    + intros st s. apply runScenario_result.
    + intros s Hs.
      apply (bounded_bind n (fun _ => True));
        [apply appends_log; exact I | auto | intros _ _].
      destruct Hs as [-> | ->].
      * destruct fuel; cbn [Scenario.main_loop]; rewrite continues_failed;
          apply bounded_ret.
      * apply IH. lia.
Qed.


Lemma distinct_keys_bounded (steps : gmap string (Step (list Assertion)))
    (l : list string) :
  NoDup l -> (forall v, v ∈ l -> is_Some (steps !! v)) ->
  length l <= size steps.
Proof.
  intros Hnd Hin. rewrite <- size_dom. unfold size, set_size. simpl.
  apply submseteq_length, NoDup_submseteq; [exact Hnd |].
  intros v Hv. apply elem_of_elements, elem_of_dom. auto.
Qed.

Lemma continues_some (a : option string) :
  Scenario.continues a = true -> exists s, a = Some s.
Proof. destruct a; [eauto | discriminate]. Qed.

Lemma chain_exists (steps : gmap string (Step (list Assertion))) :
  acyclic steps ->
  forall (k : nat) (visited : list string) (a : option string),
    NoDup visited ->
    (forall v, v ∈ visited ->
               is_Some (steps !! v) /\ tc (hop steps) (Some v) a) ->
    rtc (hop steps) (Some "_start") a ->
    size steps <= k + length visited ->
    exists n, n <= k + 1 /\ path_to_terminal steps a n.
Proof.
  intros Hac. induction k as [|k IH]; intros visited a Hnd Hvis Hreach Hsize.
  - destruct (Scenario.continues a) eqn:Hgo;
      [| exists 0; split; [lia | now apply path_terminal]].
    destruct (steps !! default "" a) as [so|] eqn:Hso;
      [| destruct (inherited (default "" a)) eqn:Hinh;
         [ exists 1; split; [lia | now apply path_member]
         | exists 0; split; [lia | now apply path_unresolved] ] ].
    exfalso. destruct (continues_some a Hgo) as [s ->]. simpl in Hso.
    assert (Hfresh : s ∉ visited).
    { intros Hin. apply (Hac (Some s) Hreach). now apply Hvis. }
    assert (Hlen : length (s :: visited) <= size steps).
    { apply distinct_keys_bounded; [now constructor |].
      intros v [-> | Hv]%elem_of_cons; [eauto | now apply Hvis]. }
    simpl in Hlen. lia.
  - destruct (Scenario.continues a) eqn:Hgo;
      [| exists 0; split; [lia | now apply path_terminal]].
    destruct (steps !! default "" a) as [so|] eqn:Hso;
      [| destruct (inherited (default "" a)) eqn:Hinh;
         [ exists 1; split; [lia | now apply path_member]
         | exists 0; split; [lia | now apply path_unresolved] ] ].
    destruct (continues_some a Hgo) as [s ->]. simpl in Hso.
    assert (Hhop : hop steps (Some s) (next so)) by (split; eauto).
    assert (Hfresh : s ∉ visited).
    { intros Hin. apply (Hac (Some s) Hreach). now apply Hvis. }
    destruct (IH (s :: visited) (next so)) as [n [Hn Hpath]].
    + now constructor.
    + intros v [-> | Hv]%elem_of_cons.
      * split; [eauto | now apply tc_once].
      * destruct (Hvis v Hv) as [Hsome Htc]. split; [exact Hsome |].
        eapply tc_r; eauto.
    + eapply rtc_r; eauto.
    + simpl. lia.
    + exists (S n). split; [lia |]. eapply path_next; eauto.
Qed.

(** A step graph with no cycle reachable from ["_start"] has a chain from
    ["_start"] to the name that ends it, on which the loop enters at most
    its declared steps and one inherited member. *)
Lemma acyclic_path_to_terminal (steps : gmap string (Step (list Assertion))) :
  acyclic steps ->
  exists n, n <= size steps + 1 /\ path_to_terminal steps (Some "_start") n.
Proof.
  intros Hac.
  apply (chain_exists steps Hac (size steps) [] (Some "_start")).
  - constructor.
  - intros v Hv. inversion Hv.
  - constructor.
  - simpl. lia.
Qed.

(** The chain from a name is unique, and so is its length. *)
Lemma path_to_terminal_unique (steps : gmap string (Step (list Assertion)))
    (a : option string) (n m : nat) :
  path_to_terminal steps a n -> path_to_terminal steps a m -> n = m.
Proof.
  intros Hn. revert m.
  induction Hn as [a Hstop | a Hgo Hnone Hown | a Hgo Hnone Hinh
                   | a so n Hgo Hsome Hpath IH];
    intros m Hm; inversion Hm; subst; try congruence.
  f_equal. apply IH. congruence.
Qed.

(** X27. In a step graph with no cycle of [next] pointers reachable from
    ["_start"], the chain from ["_start"] ends after entering some [n]
    names: the declared steps on it and, when it ends on a name inherited
    from [Object.prototype], that member too, so [n] is at most the number
    of declared steps plus one. The loop of the entry point then ends,
    whatever the model and the page answer, within any allowance of more
    than [n] iterations, having taken at most [n] snapshots. *)
Theorem state_machine_terminates :
  forall (E : Env) (sp : string)
         (steps : gmap string (Step (list Assertion))),
    acyclic steps ->
    exists n,
      path_to_terminal steps (Some "_start") n
      /\ n <= size steps + 1
      /\ forall (fuel : nat) (st : state E),
           n < fuel ->
           let run := Scenario.main_loop E sp fuel steps None (Some "_start") st in
           fst run <> Ok None
           /\ exists tr, trace (snd run) = trace st ++ tr /\ visits tr <= n.
Proof.
  intros E sp steps Hac.
  destruct (acyclic_path_to_terminal steps Hac) as [n [Hn Hpath]].
  exists n. split; [exact Hpath |]. split; [exact Hn |].
  intros fuel st Hfuel.
  exact (main_loop_bounded E sp steps (Some "_start") n Hpath fuel None Hfuel st).
Qed.

(** C7, at the input where the code departs from it. The scenario has one
    step, whose [next] names no step: the longest path from ["_start"] to a
    terminal state has that one step on it. With the name ["nowhere"] the
    loop does stop there: one step visited, "No step found", and the banner
    of an unknown final step. With the name ["constructor"] it does not:
    [steps["constructor"]] is the member every object inherits, which is
    truthy, so the loop enters it as a second step -- a second snapshot, the
    model asked again, its plan acted upon -- until the loop over the
    tests of that member throws; the run ends in the [catch] of the entry
    point, with neither "No step found" nor a banner. *)
Theorem inherited_step_name_is_entered :
  let run name :=
    Scenario.main Demo.env "" 3 (Prototype.strayNext name)
      (Demo.start Prototype.twoRounds) in
  Prototype.strayNext "constructor" !! "constructor" = None
  /\ Prototype.strayNext "nowhere" !! "nowhere" = None
  /\ fst (run "nowhere") = Ok (Scenario.Finished (Some "nowhere"))
  /\ visits (trace (snd (run "nowhere"))) = 1
  /\ page_events (trace (snd (run "nowhere")))
     = [EvGoto "http://x"; EvSnapshot]
  /\ last (trace (snd (run "nowhere")))
     = Some (EvLog "Scenario failed. Unknown final step:" ["nowhere"])
  /\ fst (run "constructor") = Ok Scenario.Crashed
  /\ visits (trace (snd (run "constructor"))) = 2
  /\ page_events (trace (snd (run "constructor")))
     = [EvGoto "http://x"; EvSnapshot; EvSnapshot;
        EvQuery (Some "button"); EvClick Cases.goButton]
  /\ last (trace (snd (run "constructor"))) = Some (EvLog "Error:" []).
Proof. cbv zeta. repeat split; vm_compute; reflexivity. Qed.

(** ** Instances *)

Lemma one_step_graph_acyclic :
  acyclic Cases.oneStep.
Proof.
  assert (Hhop : forall a b,
             hop Cases.oneStep a b ->
             b = Some "_end").
  { intros a b [_ [so [Hso Hnext]]]. unfold Cases.oneStep in Hso.
    apply lookup_singleton_Some in Hso as [_ <-]. now rewrite <- Hnext. }
  assert (Hend : forall b,
             ~ hop Cases.oneStep
                   (Some "_end") b).
  { intros b [Hgo _]. discriminate. }
  intros a _ Hcycle. inversion Hcycle as [x y Hab | x y z Hab Hrest]; subst.
  - pose proof (Hhop _ _ Hab) as ->. exact (Hend _ Hab).
  - pose proof (Hhop _ _ Hab) as ->.
    inversion Hrest as [x y H | x y z H _]; subst; exact (Hend _ H).
Qed.

Lemma conversation_history_witness :
  let st := Demo.start (Cases.goPage "[]") in
  chat Demo.env (messages st ++ [Message "user" "hello"]) (world st)
  = (Some (Message "assistant" "ready"),
     {| Demo.script := [Some "[]"]; Demo.dom := [("button", Cases.goButton)];
        Demo.tree := Some (Node (Some "button") (Some "Go") None None []) |})
  /\ length (messages (snd (send Demo.env "hello" st)))
     = length (messages st) + 2.
Proof.
  split; [reflexivity |].
  apply (proj2 (conversation_history Demo.env
                  (Demo.start (Cases.goPage "[]")))
               "hello" (Message "assistant" "ready")
               {| Demo.script := [Some "[]"];
                  Demo.dom := [("button", Cases.goButton)];
                  Demo.tree := Some (Node (Some "button") (Some "Go")
                                          None None []) |}).
  reflexivity.
Defined.

Lemma plan_parsing_one_retry_witness :
  JSON_parse Demo.env "Sure, here it is" = None
  /\ JSON_parse Demo.env "[]" = Some (VArr [])
  /\ fst (askPlan Demo.env "" "" (instruction Cases.chattyStep) Cases.chatty0)
     = Ok (VArr []).
Proof.
  split; [reflexivity |]. split; [reflexivity |].
  pose proof (proj2 (plan_parsing_one_retry Demo.env "" "" Cases.chattyStep
                       Cases.chatty0)
                    Cases.chatty1 "Sure, here it is" Cases.chatty2
                    eq_refl eq_refl) as H.
  pose proof (proj2 (proj2 H eq_refl) "[]" Cases.chatty3 eq_refl) as H'.
  exact (f_equal fst (proj1 (proj2 H') (VArr []) eq_refl)).
Defined.

Lemma state_machine_terminates_witness :
  acyclic Cases.oneStep
  /\ exists n,
       path_to_terminal Cases.oneStep
                        (Some "_start") n
       /\ n <= 2.
Proof.
  split; [exact one_step_graph_acyclic |].
  destruct (state_machine_terminates Demo.env ""
              Cases.oneStep
              one_step_graph_acyclic) as [n [Hpath [Hn _]]].
  exists n. split; [exact Hpath |].
  unfold Cases.oneStep in Hn. rewrite map_size_singleton in Hn. exact Hn.
Defined.

(** The end-to-end scenario: the model proposes the click on the Submit
    button, the run navigates, takes one snapshot, clicks the button once,
    and ends on ["_end"]. *)
Example end_to_end_scenario :
  let run := Scenario.main Demo.env "" 2 Cases.submitScenario
               (Demo.start (Cases.submitPage Cases.buttonPlan)) in
  fst run = Ok (Scenario.Finished (Some "_end"))
  /\ page_events (trace (snd run))
     = [EvGoto "http://x"; EvSnapshot; EvQuery (Some "button");
        EvClick Cases.submitButton].
Proof. split; vm_compute; reflexivity. Qed.

(** The failure scenario: the model proposes a click on a Link; no link is
    on the page, the assertion fails on the role, the run ends on
    ["_failed"]. *)
Example failure_scenario :
  let run := Scenario.main Demo.env "" 2 Cases.submitScenario
               (Demo.start (Cases.submitPage Cases.linkPlan)) in
  fst run = Ok (Scenario.Finished (Some "_failed"))
  /\ page_events (trace (snd run))
     = [EvGoto "http://x"; EvSnapshot; EvQuery (Some "a")].
Proof. split; vm_compute; reflexivity. Qed.

(** The earliest [setup] keeps what the history held. *)
Remark earliest_setup_keeps_history (E : Env) (prompt : string) (st : state E) :
  messages (snd (Earliest.setup E prompt st))
  = messages st ++ [Message "system" prompt].
Proof.
  unfold Earliest.setup, mbind, M_bind, bind, set_messages, get_messages, emit,
    call, mret, M_ret, ret. simpl.
  destruct (chat E _ (world st)) as [[reply|] w']; reflexivity.
Qed.

(* ================================================================== *)
(** * Further properties *)

(** ** Accessibility Projector, continued *)

Lemma count_newlines_app (a b : string) :
  count_newlines (a +:+ b) = count_newlines a + count_newlines b.
Proof.
  induction a as [|c a IH]; [reflexivity |].
  cbn [String.append count_newlines]. rewrite IH. lia.
Qed.

Lemma count_newlines_repeat_spaces (n : nat) :
  count_newlines (repeat_str "  " n) = 0.
Proof.
  induction n as [|n IH]; [reflexivity |].
  cbn [repeat_str]. rewrite count_newlines_app, IH. reflexivity.
Qed.

Lemma count_newlines_digits (u : Decimal.uint) :
  count_newlines (NilEmpty.string_of_uint u) = 0.
Proof. induction u; simpl; auto. Qed.

Lemma count_newlines_string_of_Z (z : Z) : count_newlines (string_of_Z z) = 0.
Proof.
  unfold string_of_Z, NilZero.string_of_int, NilZero.string_of_uint.
  destruct (Z.to_int z) as [u | u];
    [| cbn [count_newlines Ascii.eqb Bool.eqb]];
    destruct u; try reflexivity; simpl; apply count_newlines_digits.
Qed.

Lemma toUpperCase_not_newline (c : ascii) :
  Ascii.eqb (toUpperCase_ascii c) "010"%char = Ascii.eqb c "010"%char.
Proof. destruct c as [[] [] [] [] [] [] [] []]; reflexivity. Qed.

Lemma count_newlines_capitalize (s : string) :
  count_newlines (capitalize s) = count_newlines s.
Proof.
  destruct s as [|c s]; [reflexivity |].
  cbn [capitalize count_newlines]. now rewrite toUpperCase_not_newline.
Qed.

Lemma count_newlines_or_str (o : option string) (d : string) :
  single_line o -> count_newlines d = 0 -> count_newlines (or_str o d) = 0.
Proof.
  unfold or_str, single_line. destruct (truthy_str o); auto.
Qed.

Lemma count_newlines_line (depth : nat) (n : node) :
  single_line_fields (depth, n) -> count_newlines (line depth n) = 1.
Proof.
  destruct n as [role name description level children].
  unfold single_line_fields. cbn [snd node_role node_name node_description].
  intros [Hrole [Hname Hdesc]].
  unfold line, line_text. rewrite !count_newlines_app, count_newlines_repeat_spaces.
  assert (Hsuffix : count_newlines (if truthy_str description
                                    then ", " +:+ default "" description
                                    else "") = 0).
  { destruct (truthy_str description); [| reflexivity].
    rewrite count_newlines_app. exact Hdesc. }
  rewrite Hsuffix.
  assert (Hn : forall d, count_newlines d = 0 ->
                          count_newlines (or_str name d) = 0)
    by (intros; now apply count_newlines_or_str).
  assert (Hd0 := count_newlines_or_str description "" Hdesc eq_refl).
  assert (Hl : count_newlines (level_or_1 level) = 0).
  { unfold level_or_1. destruct level as [z|]; [| reflexivity].
    destruct (z =? 0)%Z; [reflexivity | apply count_newlines_string_of_Z]. }
  unfold single_line in Hrole.
  assert (Hphrase : count_newlines (phrase (default "" role) name description level) = 0).
  { unfold phrase.
    repeat match goal with
           | |- context [String.eqb ?a ?b] => destruct (String.eqb a b)
           end;
      rewrite ?count_newlines_app, ?count_newlines_capitalize, ?Hl, ?Hrole;
      rewrite ?Hn by (first [reflexivity | exact Hd0]);
      reflexivity. }
  rewrite Hphrase. reflexivity.
Qed.

Lemma split_lines_app (a b cur : string) :
  count_newlines a = 0 -> split_lines cur (a +:+ b) = split_lines (cur +:+ a) b.
Proof.
  revert cur. induction a as [|c a IH]; intros cur Ha.
  - cbn [String.append]. now rewrite append_empty_r.
  - cbn [count_newlines] in Ha. cbn [String.append split_lines].
    destruct (Ascii.eqb c "010"%char); [discriminate |].
    rewrite IH by exact Ha. rewrite append_assoc. reflexivity.
Qed.

Lemma line_body_single (dn : nat * node) :
  single_line_fields dn -> count_newlines (line_body dn) = 0.
Proof.
  destruct dn as [d m]. intros H.
  pose proof (count_newlines_line d m H) as Hline.
  unfold line in Hline. unfold line_body. cbn [fst snd].
  rewrite !count_newlines_app in Hline. rewrite count_newlines_app.
  change (count_newlines newline) with 1 in Hline. lia.
Qed.

Lemma render_line_body (dn : nat * node) :
  render dn = line_body dn +:+ newline.
Proof. unfold render, line, line_body. now rewrite append_assoc. Qed.

Lemma split_rendered_lines (l : list (nat * node)) :
  Forall single_line_fields l ->
  split_lines "" (concat_str (map render l)) = (map line_body l, "").
Proof.
  induction 1 as [|dn l Hdn _ IH]; [reflexivity |].
  cbn [map]. change (concat_str (?x :: ?xs)) with (x +:+ concat_str xs).
  rewrite render_line_body, append_assoc.
  rewrite split_lines_app by (now apply line_body_single).
  cbn [String.append newline split_lines Ascii.eqb Bool.eqb].
  now rewrite IH.
Qed.

Lemma Forall_filter_keeps {A} (P : A -> Prop) (f : A -> bool) (l : list A) :
  Forall P l -> Forall P (List.filter f l).
Proof.
  induction 1 as [|x l Hx _ IH]; [constructor |].
  cbn [List.filter]. destruct (f x); [now constructor | exact IH].
Qed.

(** C4, as amended. On a tree none of whose roles, names and descriptions
    holds a line break, the newline-terminated lines of the projection are,
    one for one and in pre-order (a node before its children, the children
    in snapshot order), the lines of the nodes whose [role] is truthy, that
    is neither null nor the empty string, and nothing follows the last
    line; a node's line is two spaces per level of its depth, then its
    text. On every tree: the projection is the concatenation of those
    nodes' lines, each ended by a line break; a [heading] whose [level] is
    absent reads "Heading level 1"; and a node whose [role] is null or empty
    adds no line while its descendants are all still enumerated. *)
Theorem projector_lines :
  (forall n depth,
      Forall single_line_fields (preorder n depth) ->
      lines (generateScreenReaderOutput n depth)
      = map line_body (List.filter has_line (preorder n depth))
      /\ unterminated (generateScreenReaderOutput n depth) = "")
  /\ (forall n depth,
        generateScreenReaderOutput n depth
        = concat_str (map (fun dn => line_body dn +:+ newline)
                          (List.filter has_line (preorder n depth))))
  /\ (forall dn, has_line dn = true <->
                 exists r, node_role (snd dn) = Some r /\ r <> "")
  /\ (forall depth n,
        line_body (depth, n) = repeat_str "  " depth +:+ line_text n
        /\ String.length (repeat_str "  " depth) = 2 * depth)
  /\ (forall name description children,
        line_text (Node (Some "heading") name description None children)
        = "Heading level 1, " +:+ or_str name "Unnamed heading"
          +:+ (if truthy_str description
               then ", " +:+ default "" description else ""))
  /\ (forall role name description level children depth,
        truthy_str role = false ->
        generateScreenReaderOutput
          (Node role name description level children) depth
        = concat_str (map (fun c => generateScreenReaderOutput c (S depth))
                          children)).
Proof.
  split.
  { intros n depth Hclean. unfold lines, unterminated.
    rewrite generate_preorder, split_rendered_lines;
      [split; reflexivity | now apply Forall_filter_keeps]. }
  split.
  { intros n depth. rewrite generate_preorder. f_equal.
    apply map_ext. intros dn. apply render_line_body. }
  split.
  { intros [d [r nm ds lv cs]]. unfold has_line. simpl.
    destruct r as [r|]; simpl.
    - destruct (String.eqb_spec r ""); simpl; split.
      + discriminate.
      + intros [r' [Hr Hne]]. congruence.
      + intros _. eauto.
      + reflexivity.
    - split; [discriminate | intros [r' [Hr _]]; discriminate]. }
  split.
  { intros depth n. split; [reflexivity |].
    rewrite repeat_str_length. simpl. lia. }
  split; [reflexivity |].
  intros role name description level children depth Hrole.
  cbn [generateScreenReaderOutput node_children].
  unfold node_output. simpl. rewrite Hrole. simpl.
  induction children as [|c cs IH]; [reflexivity |].
  unfold concat_str in *. simpl. now rewrite IH.
Qed.

Lemma projector_lines_witness :
  let tree := Node (Some "RootWebArea") (Some "App") None None
                   [Node (Some "heading") (Some "Welcome") None None [];
                    Node None None None None
                         [Node (Some "button") (Some "Go") None None []]] in
  Forall single_line_fields (preorder tree 0)
  /\ lines (generateScreenReaderOutput tree 0)
     = ["RootWebArea, App"; "  Heading level 1, Welcome"; "    Button, Go"].
Proof.
  cbv zeta.
  assert (H : Forall single_line_fields
                (preorder (Node (Some "RootWebArea") (Some "App") None None
                   [Node (Some "heading") (Some "Welcome") None None [];
                    Node None None None None
                         [Node (Some "button") (Some "Go") None None []]]) 0))
    by (repeat constructor).
  split; [exact H |].
  exact (proj1 (proj1 projector_lines _ 0 H)).
Defined.

(** C4, as stated, fails twice over. A node whose role is the empty string
    has a role that is not null, yet [if (role)] skips it: the output
    cannot be one newline-terminated line per node with a non-null role.
    And a name may itself hold a line break: the one node of the second tree
    gives two lines. *)
Lemma projector_line_count_fails :
  let n0 := Node (Some "") None None None [] in
  let n1 := Node (Some "button") (Some ("Save" +:+ newline +:+ "draft"))
                 None None [] in
  (node_role n0 <> None
   /\ generateScreenReaderOutput n0 0 = ""
   /\ ~ (exists rendering : nat * node -> string,
           (forall dn, exists body, rendering dn = body +:+ newline)
           /\ generateScreenReaderOutput n0 0
              = concat_str (map rendering
                                (List.filter role_non_null (preorder n0 0)))))
  /\ (length (List.filter role_non_null (preorder n1 0)) = 1
      /\ lines (generateScreenReaderOutput n1 0) = ["Button, Save"; "draft"]
      /\ count_newlines (generateScreenReaderOutput n1 0) = 2).
Proof.
  cbv zeta. split; [| repeat split; reflexivity].
  split; [discriminate |]. split; [reflexivity |].
  intros [rendering [Hnl Heq]]. cbv in Heq.
  destruct (Hnl (0, Node (Some "") None None None [])) as [body Hbody].
  cbv in Hbody. unfold render in *.
  assert (Hlen : String.length "" = String.length (rendering (0, Node (Some "") None None None []) +:+ "")).
  { f_equal. exact Heq. }
  rewrite Hbody in Hlen.
  rewrite !length_append in Hlen. simpl in Hlen. lia.
Qed.

(** X1. On a tree none of whose roles, names and descriptions holds a line
    break, the projection has exactly as many line breaks as the tree has
    nodes with a truthy role. *)
Theorem projection_line_count :
  forall (n : node) (depth : nat),
    Forall single_line_fields (preorder n depth) ->
    count_newlines (generateScreenReaderOutput n depth)
    = length (List.filter has_line (preorder n depth)).
Proof.
  intros n depth Hclean. rewrite generate_preorder.
  induction Hclean as [|[d m] l Hm _ IH]; [reflexivity |].
  cbn [List.filter]. destruct (has_line (d, m)); [| exact IH].
  cbn [map length]. change (concat_str (?x :: ?xs)) with (x +:+ concat_str xs).
  rewrite count_newlines_app, IH. unfold render. cbn [fst snd].
  now rewrite (count_newlines_line d m Hm).
Qed.

Lemma projection_line_count_witness :
  Forall single_line_fields
         (preorder (Node (Some "RootWebArea") (Some "App") None None
                         [Node (Some "button") (Some "Go") None None [];
                          Node None None None None []]) 0)
  /\ count_newlines
       (generateScreenReaderOutput
          (Node (Some "RootWebArea") (Some "App") None None
                [Node (Some "button") (Some "Go") None None [];
                 Node None None None None []]) 0) = 2.
Proof.
  assert (H : Forall single_line_fields
                (preorder (Node (Some "RootWebArea") (Some "App") None None
                                [Node (Some "button") (Some "Go") None None [];
                                 Node None None None None []]) 0)).
  { repeat constructor. }
  split; [exact H |].
  exact (projection_line_count _ 0 H).
Defined.




(** ** printPretty *)

Lemma length_le_max (line : string) (lines : list string) :
  In line lines ->
  String.length line <= fold_right Nat.max 0 (map String.length lines).
Proof.
  induction lines as [|l ls IH]; [intros [] |].
  intros [-> | Hin]; simpl; [lia |]. specialize (IH Hin). lia.
Qed.

Lemma paddedLine_length (char : string) (padding width : nat) (line : string) :
  String.length line <= width ->
  String.length (paddedLine char padding width line)
  = width + 2 * padding + 2 * String.length char.
Proof.
  intros Hle. unfold paddedLine.
  rewrite !length_append, !repeat_str_length. simpl. lia.
Qed.

(** X3. [printPretty] cannot draw a box around nothing: with no line it
    throws. With at least one line and a one-character border, the box has
    one row per line between two border rows, and every row is as long as
    the longest line plus twice the padding plus the two border
    characters. *)
Theorem printPretty_box :
  forall (char : string) (padding : nat) (lines : list string),
    (printPretty char padding lines = None <-> lines = [])
    /\ (String.length char = 1 ->
        forall rows,
          printPretty char padding lines = Some rows ->
          length rows = length lines + 2
          /\ Forall (fun row =>
                       String.length row
                       = fold_right Nat.max 0 (map String.length lines)
                         + 2 * padding + 2) rows).
Proof.
  intros char padding lines. split.
  - unfold printPretty, maxLength. destruct lines; split; congruence.
  - intros Hchar rows. unfold printPretty, maxLength.
    destruct lines as [|l ls]; [discriminate |].
    set (lines := l :: ls). set (width := fold_right Nat.max 0 _).
    intros [= <-]. split.
    + cbn [length]. rewrite length_app, length_map. simpl. lia.
    + assert (Hborder : String.length (repeat_str char (width + padding * 2 + 2))
                        = width + 2 * padding + 2)
        by (rewrite repeat_str_length, Hchar; lia).
      constructor; [exact Hborder |].
      apply (Forall_app _ (map (paddedLine char padding width) lines)
                        [repeat_str char (width + padding * 2 + 2)]).
      split; [| constructor; [exact Hborder | constructor]].
      apply Forall_forall. intros row Hrow.
      apply list_elem_of_In, in_map_iff in Hrow as [line [<- Hin]].
      rewrite paddedLine_length, Hchar; [lia |].
      now apply length_le_max.
Qed.

Lemma printPretty_box_witness :
  String.length "*" = 1
  /\ printPretty "*" 2 ["Scenario failed."]
     = Some ["**********************"; "*  Scenario failed.  *";
             "**********************"]
  /\ Forall (fun row => String.length row = 22)
            ["**********************"; "*  Scenario failed.  *";
             "**********************"].
Proof.
  split; [reflexivity |]. split; [reflexivity |].
  exact (proj2 (proj2 (printPretty_box "*" 2 ["Scenario failed."]) eq_refl
                 _ eq_refl)).
Defined.

(** ** checkAction, continued *)

(** X4. On a plan of objects and an object pattern, [actionTaken] passes
    exactly when some action agrees with the pattern, by strict equality, on
    every key the pattern enumerates before its first [description] key; a
    key the action lacks agrees with nothing. *)
Theorem actionTaken_on_objects :
  forall (plan : list (list (string * value)))
         (theirs : list (string * value)),
    actionTaken (map VObj plan) (Some (VObj theirs))
    = Ok (existsb
            (fun mine =>
               forallb (fun key => strict_eq (assoc key mine) (assoc key theirs))
                       (keys_before_description (map fst theirs)))
            plan).
Proof.
  intros plan theirs. induction plan as [|mine rest IH]; [reflexivity |].
  cbn [map actionTaken existsb]. unfold checkAction. cbn [keys_in].
  rewrite checkAction_keys_compared.
  destruct (forallb _ _); [reflexivity | exact IH].
Qed.

Lemma strict_eq_nested (x : option value) (v : value) :
  (exists items, v = VArr items) \/ (exists props, v = VObj props) ->
  strict_eq x (Some v) = false.
Proof.
  intros [[items ->] | [props ->]]; destruct x as [[]|]; reflexivity.
Qed.

(** X5. A pattern that asks for an array or an object under some compared
    key matches no action, whatever the plan holds: two parsed values are
    never the same object. *)
Theorem nested_pattern_value_never_matches :
  forall (plan : list (list (string * value)))
         (theirs : list (string * value)) (key : string) (v : value),
    In key (keys_before_description (map fst theirs)) ->
    assoc key theirs = Some v ->
    (exists items, v = VArr items) \/ (exists props, v = VObj props) ->
    actionTaken (map VObj plan) (Some (VObj theirs)) = Ok false.
Proof.
  intros plan theirs key v Hkey Hv Hnested.
  induction plan as [|mine rest IH]; [reflexivity |].
  cbn [map actionTaken]. unfold checkAction. cbn [keys_in].
  rewrite checkAction_keys_compared.
  assert (Hno : forallb (fun k => strict_eq (assoc k mine) (assoc k theirs))
                        (keys_before_description (map fst theirs)) = false).
  { apply not_true_is_false. intros Hall.
    rewrite forallb_forall in Hall. specialize (Hall key Hkey).
    rewrite Hv, (strict_eq_nested _ v Hnested) in Hall. discriminate. }
  rewrite Hno. exact IH.
Qed.

Lemma nested_pattern_value_never_matches_witness :
  In "value" (keys_before_description
                (map fst [("role", VStr "Button"); ("value", VArr [])]))
  /\ actionTaken
       (map VObj [[("role", VStr "Button"); ("value", VArr [])]])
       (Some (VObj [("role", VStr "Button"); ("value", VArr [])]))
     = Ok false.
Proof.
  assert (H : In "value" (keys_before_description
                (map fst [("role", VStr "Button"); ("value", VArr [])])))
    by (right; left; reflexivity).
  split; [exact H |].
  exact (nested_pattern_value_never_matches
           [[("role", VStr "Button"); ("value", VArr [])]]
           [("role", VStr "Button"); ("value", VArr [])]
           "value" (VArr []) H eq_refl
           (or_introl (ex_intro _ [] eq_refl))).
Defined.

(** ** Action loop *)






(** ** Element Resolver, continued *)





(** ** Replies that are JSON but not a plan *)

(** X9. A reply that parses to a value [for ... of] cannot iterate (an
    object, a number, a boolean, [null]) is accepted by the parser, so no
    corrective message is sent; the step then ends with a [TypeError] at the
    head of the action loop, before any action or test. *)
Theorem non_iterable_reply_throws :
  forall (E : Env) (sp sro : string) (step : Step (list Assertion))
         (st st1 : state E) (response : value),
    askPlan E sp sro (instruction step) st = (Ok response, st1) ->
    not_iterable response ->
    Scenario.runScenario E sp sro step st
    = (Throw TypeError,
       extend st1 [EvLog "Performing actions on the page:" []]).
Proof.
  intros E sp sro step st st1 response Hask Hnot.
  unfold Scenario.runScenario. rewrite bind_run, Hask, bind_run.
  cbn [log emit]. rewrite bind_run. unfold lift.
  destruct response; try contradiction; reflexivity.
Qed.

Lemma non_iterable_reply_throws_witness :
  askPlan Demo.env "" "" (instruction Cases.chattyStep)
          (Demo.start Replies.objectPage)
  = (Ok (VObj []), Replies.afterObject)
  /\ fst (Scenario.runScenario Demo.env "" "" Cases.chattyStep
            (Demo.start Replies.objectPage)) = Throw TypeError.
Proof.
  split; [reflexivity |].
  exact (f_equal fst
           (non_iterable_reply_throws Demo.env "" "" Cases.chattyStep
              (Demo.start Replies.objectPage) Replies.afterObject (VObj [])
              eq_refl I)).
Defined.

(** ** Success effects, continued *)

Lemma page_events_app (tr1 tr2 : list event) :
  page_events (tr1 ++ tr2) = page_events tr1 ++ page_events tr2.
Proof. apply List.filter_app. Qed.












(** ** Assertion Evaluator, continued *)

Lemma extend_extend {E : Env} (st : state E) (tr1 tr2 : list event) :
  extend (extend st tr1) tr2 = extend st (tr1 ++ tr2).
Proof. unfold extend. simpl. now rewrite app_assoc. Qed.

Lemma extend_nil {E : Env} (st : state E) : extend st [] = st.
Proof. unfold extend. rewrite app_nil_r. now destruct st. Qed.

Lemma inert_effect_run (E : Env) (narrate : bool) (eff : option SuccessEffect)
    (st : state E) :
  inert eff = true ->
  runEffect E narrate eff st
  = (Ok tt, extend st [EvLog "No additional action taken" []]).
Proof.
  unfold inert, runEffect. intros [H1 H2]%andb_true_iff.
  apply negb_true_iff in H1, H2. rewrite H1, H2. reflexivity.
Qed.

Lemma passing_inert_test (E : Env) (response : value) (test : Assertion)
    (rest : list Assertion) (step : Step (list Assertion)) (st : state E) :
  passes_inertly response test ->
  Scenario.evaluate E response (test :: rest) step st
  = Scenario.evaluate E response rest step (extend st (passed_events test)).
Proof.
  intros [Hpass Hinert]. rewrite (evaluate_passing_test E _ _ _ _ _ Hpass).
  rewrite (inert_effect_run E false _ _ Hinert), extend_extend. reflexivity.
Qed.

(** X13. When every test of the step passes and none carries a click or
    input effect, the step returns its declared [next]; each test logs its
    success in declared order, and the page is not touched. *)
Theorem all_tests_pass_returns_next :
  forall (E : Env) (response : value) (tests : list Assertion)
         (step : Step (list Assertion)) (st : state E),
    Forall (passes_inertly response) tests ->
    Scenario.evaluate E response tests step st
    = (Ok (next step), extend st (flat_map passed_events tests))
    /\ page_events (flat_map passed_events tests) = [].
Proof.
  intros E response tests step st Hall. split.
  - revert st. induction Hall as [|test rest Htest _ IH]; intros st.
    + cbn [flat_map]. now rewrite extend_nil.
    + rewrite (passing_inert_test E _ _ _ _ _ Htest), IH, extend_extend.
      reflexivity.
  - clear. induction tests as [|test rest IH]; [reflexivity | exact IH].
Qed.

Lemma all_tests_pass_returns_next_witness :
  Forall (passes_inertly (VArr []))
         [Effects.plainTest None None "first";
          Effects.plainTest (Some "responseIsEqual") (Some (VStr "[]")) "second"]
  /\ fst (Scenario.evaluate Demo.env (VArr [])
            [Effects.plainTest None None "first";
             Effects.plainTest (Some "responseIsEqual") (Some (VStr "[]"))
                               "second"]
            (Cases.stepWith []) (Demo.start (Cases.goPage "[]")))
     = Ok (Some "_end").
Proof.
  assert (H : Forall (passes_inertly (VArr []))
                [Effects.plainTest None None "first";
                 Effects.plainTest (Some "responseIsEqual") (Some (VStr "[]"))
                                   "second"]).
  { repeat constructor. }
  split; [exact H |].
  exact (f_equal fst
           (proj1 (all_tests_pass_returns_next Demo.env (VArr []) _
                     (Cases.stepWith []) (Demo.start (Cases.goPage "[]")) H))).
Defined.

(** X14. The first failing test ends the step: after the tests before it
    have passed (none carrying a click or input effect), the step returns
    ["_failed"] and logs that failure last; the result and the trace are the
    same whatever tests follow the failing one and whatever [next] the step
    declares. *)
Theorem first_failing_test_ends_step :
  forall (E : Env) (response : value) (before after : list Assertion)
         (bad : Assertion) (step : Step (list Assertion)) (st : state E),
    Forall (passes_inertly response) before ->
    Scenario.passes response bad = false ->
    Scenario.evaluate E response (before ++ bad :: after) step st
    = (Ok (Some "_failed"),
       extend st (flat_map passed_events before
                  ++ [EvLog "failed." [str_opt (description bad)]])).
Proof.
  intros E response before after bad step st Hall Hbad. revert st.
  induction Hall as [|test rest Htest _ IH]; intros st.
  - cbn [app flat_map]. now apply evaluate_failing_test.
  - cbn [app flat_map].
    rewrite (passing_inert_test E _ _ _ _ _ Htest), IH, extend_extend.
    now rewrite <- app_assoc.
Qed.

Lemma first_failing_test_ends_step_witness :
  Forall (passes_inertly (VArr [])) [Effects.plainTest None None "first"]
  /\ Scenario.passes (VArr [])
       (Effects.plainTest (Some "actionTaken") (Some (VObj [])) "second")
     = false
  /\ fst (Scenario.evaluate Demo.env (VArr [])
            ([Effects.plainTest None None "first"]
             ++ Effects.plainTest (Some "actionTaken") (Some (VObj []))
                                  "second"
                :: [Effects.plainTest None None "third"])
            (Cases.stepWith []) (Demo.start (Cases.goPage "[]")))
     = Ok (Some "_failed").
Proof.
  assert (H : Forall (passes_inertly (VArr []))
                [Effects.plainTest None None "first"]).
  { repeat constructor. }
  split; [exact H |]. split; [reflexivity |].
  exact (f_equal fst
           (first_failing_test_ends_step Demo.env (VArr [])
              [Effects.plainTest None None "first"]
              [Effects.plainTest None None "third"]
              (Effects.plainTest (Some "actionTaken") (Some (VObj [])) "second")
              (Cases.stepWith []) (Demo.start (Cases.goPage "[]")) H eq_refl)).
Defined.

(** ** Conversation Client, continued *)

Section KeepsHistory.

Context {E : Env}.

Lemma keeps_ret {A} (a : A) : keeps_history (mret a : M E A).
Proof. intros st. reflexivity. Qed.

Lemma keeps_throw {A} (e : exn) : keeps_history (throw E e : M E A).
Proof. intros st. reflexivity. Qed.

Lemma keeps_lift {A} (r : result A) : keeps_history (lift E r).
Proof. intros st. reflexivity. Qed.

Lemma keeps_emit (e : event) : keeps_history (emit E e).
Proof. intros st. reflexivity. Qed.

Lemma keeps_log (text : string) (args : list string) :
  keeps_history (log E text args).
Proof. intros st. reflexivity. Qed.

Lemma keeps_call {A} (e : exn) (f : World E -> option A * World E) :
  keeps_history (call E e f).
Proof.
  intros st. unfold call. destruct (f (world st)) as [[a|] w]; reflexivity.
Qed.

Lemma keeps_call_unit (f : World E -> bool * World E) :
  keeps_history (call_unit E f).
Proof. apply keeps_call. Qed.

Lemma keeps_bind {A B} (m : M E A) (k : A -> M E B) :
  keeps_history m -> (forall a, keeps_history (k a)) -> keeps_history (m ≫= k).
Proof.
  intros Hm Hk st. rewrite bind_run. specialize (Hm st).
  destruct (m st) as [[a|e] st1]; simpl in *; [| exact Hm].
  now rewrite Hk.
Qed.

Lemma keeps_try_catch {A} (m h : M E A) :
  keeps_history m -> keeps_history h -> keeps_history (try_catch E m h).
Proof.
  intros Hm Hh st. unfold try_catch. specialize (Hm st).
  destruct (m st) as [[a|e] st1]; simpl in *; [exact Hm |].
  now rewrite Hh.
Qed.

End KeepsHistory.

Ltac keeps_auto :=
  repeat first
    [ apply keeps_ret | apply keeps_throw | apply keeps_lift
    | apply keeps_call_unit | apply keeps_call
    | apply keeps_log | apply keeps_emit
    | apply keeps_bind; [| intros ?] | apply keeps_try_catch
    | match goal with
      | |- keeps_history (if ?b then _ else _) => destruct b
      | |- keeps_history (match ?x with _ => _ end) => destruct x
      end ].

Lemma runEffect_keeps_history E narrate eff :
  keeps_history (runEffect E narrate eff).
Proof.
  unfold runEffect, destructure_first, value_toString, typeValue, clickElement.
  keeps_auto.
Qed.

Lemma performActions_keeps_history E plan :
  keeps_history (Scenario.performActions E plan).
Proof.
  induction plan as [|a rest IH]; cbn [Scenario.performActions].
  - apply keeps_ret.
  - apply keeps_bind; [| intros _; exact IH].
    unfold Scenario.performAction, resolve, handle_missing, handle_click,
      handle_type, typeValue, clickElement.
    keeps_auto.
Qed.

Lemma evaluate_keeps_history E response tests step :
  keeps_history (Scenario.evaluate E response tests step).
Proof.
  induction tests as [|test rest IH]; cbn [Scenario.evaluate].
  - apply keeps_ret.
  - destruct (Scenario.checkCondition response test).
    + apply keeps_bind; [apply keeps_log | intros _].
      apply keeps_bind; [apply runEffect_keeps_history | intros _; exact IH].
    + keeps_auto.
Qed.

Lemma askPlan_history (E : Env) (sp sro : string) (instr : option string)
    (st : state E) :
  exists rest,
    messages (snd (askPlan E sp sro instr st)) = Message "system" sp :: rest
    /\ length rest <= 4.
Proof.
  rewrite askPlan_run, setup_run.
  destruct (fst (chat E [Message "system" sp] (world st)));
    [| exists []; split; [reflexivity | simpl; lia]].
  rewrite send_run. cbn [messages world trace].
  destruct (chat E _ _) as [[m1|] w1];
    [| eexists; split; [reflexivity | simpl; lia]].
  destruct (JSON_parse E (msg_content m1));
    [eexists; split; [reflexivity | simpl; lia] |].
  rewrite send_run. cbn [messages world trace extend].
  destruct (chat E _ _) as [[m2|] w2];
    [| eexists; split; [reflexivity | simpl; lia]].
  destruct (JSON_parse E (msg_content m2));
    (eexists; split; [reflexivity | simpl; lia]).
Qed.

(** X15. Every step starts the conversation afresh: when [runScenario]
    ends, however it ends and whatever the history held before, the history
    is the system prompt followed by at most four messages (the prompt, its
    reply, and at most one corrective prompt with its reply). *)
Theorem history_is_reset_each_step :
  forall (E : Env) (sp sro : string) (step : Step (list Assertion))
         (st : state E),
    exists rest,
      messages (snd (Scenario.runScenario E sp sro step st))
      = Message "system" sp :: rest
      /\ length rest <= 4.
Proof.
  intros E sp sro step st.
  destruct (askPlan_history E sp sro (instruction step) st) as [rest [Hm Hlen]].
  exists rest. split; [| exact Hlen]. rewrite <- Hm.
  unfold Scenario.runScenario. rewrite bind_run.
  destruct (askPlan E sp sro (instruction step) st) as [[response|e] st1];
    [| reflexivity].
  cbn [snd].
  assert (Hrest : keeps_history
            (log E "Performing actions on the page:" [];;
             plan ← lift E (iterate response);
             Scenario.performActions E plan;;
             log E "Test results:" [];;
             Scenario.evaluate E response (success step) step)).
  { apply keeps_bind; [apply keeps_log | intros _].
    apply keeps_bind; [apply keeps_lift | intros plan].
    apply keeps_bind; [apply performActions_keeps_history | intros _].
    apply keeps_bind; [apply keeps_log | intros _].
    apply evaluate_keeps_history. }
  apply Hrest.
Qed.

(** X16. A [send] whose remote exchange fails throws, and leaves the
    unanswered user message at the end of the history. *)
Theorem failed_send_keeps_the_user_message :
  forall (E : Env) (text : string) (st : state E) (w' : World E),
    chat E (messages st ++ [Message "user" text]) (world st) = (None, w') ->
    fst (send E text st) = Throw RemoteError
    /\ messages (snd (send E text st)) = messages st ++ [Message "user" text]
    /\ world (snd (send E text st)) = w'.
Proof.
  intros E text st w' Hchat. rewrite send_run. cbv zeta. rewrite Hchat.
  repeat split.
Qed.

Lemma failed_send_keeps_the_user_message_witness :
  chat Demo.env (messages Silent.primed ++ [Message "user" "hello"])
       (world Silent.primed)
  = (None, {| Demo.script := []; Demo.dom := []; Demo.tree := None |})
  /\ fst (send Demo.env "hello" Silent.primed) = Throw RemoteError.
Proof.
  split; [reflexivity |].
  exact (proj1 (failed_send_keeps_the_user_message Demo.env "hello"
                  Silent.primed
                  {| Demo.script := []; Demo.dom := []; Demo.tree := None |}
                  eq_refl)).
Defined.

(** ** Scenario State Machine, continued *)

Section Exits.

Context {E : Env} (R : option string -> Prop).

Lemma exits_ret (s : option string) :
  R s -> exits_with R (mret (Some s) : M E _).
Proof. intros Hs st s' [= <-]. exact Hs. Qed.

Lemma exits_out_of_fuel : exits_with R (mret None : M E _).
Proof. intros st s' H. discriminate. Qed.

Lemma exits_bind {A} (m : M E A) (k : A -> M E (option (option string))) :
  (forall a, exits_with R (k a)) -> exits_with R (m ≫= k).
Proof.
  intros Hk st s. rewrite bind_run.
  destruct (m st) as [[a|e] st1]; [apply Hk | discriminate].
Qed.

Lemma exits_bind_post {A} (Q : A -> Prop) (m : M E A)
    (k : A -> M E (option (option string))) :
  (forall st a, fst (m st) = Ok a -> Q a) ->
  (forall a, Q a -> exits_with R (k a)) -> exits_with R (m ≫= k).
Proof.
  intros HQ Hk st s. rewrite bind_run. specialize (HQ st).
  destruct (m st) as [[a|e] st1]; [| discriminate].
  apply Hk. now apply HQ.
Qed.

End Exits.

Lemma navigation_result (E : Env) (u : option string) (st : state E)
    (a : option string) :
  fst ((emit E (EvGoto (default "" u));;
        call_unit E (goto E (default "" u));;
        mret u) st) = Ok a ->
  a = u.
Proof.
  rewrite bind_run. cbn [emit]. rewrite bind_run. unfold call_unit, call.
  cbn [world]. destruct (goto E (default "" u) (world st)) as [[] w];
    cbn; congruence.
Qed.

Lemma exits_weaken {E : Env} (R R' : option string -> Prop)
    (m : M E (option (option string))) :
  (forall s, R s -> R' s) -> exits_with R m -> exits_with R' m.
Proof. intros HRR Hm st s Hs. apply HRR. exact (Hm st s Hs). Qed.

Lemma continues_rejects (s : option string) :
  Scenario.continues s = false ->
  truthy_str s = false \/ s = Some "_end" \/ s = Some "_failed".
Proof.
  unfold Scenario.continues. destruct (truthy_str s); [| now left].
  destruct s as [x|]; cbn [is_str andb negb].
  - destruct (String.eqb_spec x "_end") as [-> | _]; [auto |].
    destruct (String.eqb_spec x "_failed") as [-> | _]; [auto | discriminate].
  - discriminate.
Qed.

Lemma server_continues_rejects (s : option string) :
  ServerEntry.continues s = false -> truthy_str s = false \/ s = Some "_end".
Proof.
  unfold ServerEntry.continues. destruct (truthy_str s); [| now left].
  destruct s as [x|]; cbn [is_str andb negb].
  - destruct (String.eqb_spec x "_end") as [-> | _]; [auto | discriminate].
  - discriminate.
Qed.

(** What the URL in force is after the head of an iteration: were it still
    unset, none was in force before and the step declares none. *)
Lemma url_in_force (E : Env) (declared currentUrl : option string)
    (st : state E) (a : option string) :
  fst ((if truthy_str declared then
          emit E (EvGoto (default "" declared));;
          call_unit E (goto E (default "" declared));;
          mret declared
        else mret currentUrl) st) = Ok a ->
  truthy_str a = false ->
  truthy_str currentUrl = false /\ truthy_str declared = false.
Proof.
  destruct (truthy_str declared) eqn:Hurl.
  - intros Ha%navigation_result. subst a. congruence.
  - intros [= <-]. auto.
Qed.

(** X17. The loop of the entry point, started on some name with some URL
    in force, hands back a step name for one of three reasons only: the loop
    condition rejects the name (it is falsy, ["_end"] or ["_failed"]); or
    [steps[name]] is [undefined] (no step bears the name and nothing of that
    name is inherited from [Object.prototype]); or it is the very name the
    loop was started on, no URL was in force at that point and its step
    declares none. Past the first iteration the loop never stops for want
    of a URL: the URL of an earlier step stays in force. *)
Theorem loop_exit_reasons :
  forall (E : Env) (sp : string) (fuel : nat)
         (steps : gmap string (Step (list Assertion)))
         (currentUrl step : option string) (st : state E) (s : option string),
    fst (Scenario.main_loop E sp fuel steps currentUrl step st) = Ok (Some s) ->
    exit_reason steps currentUrl step s.
Proof.
  intros E sp fuel steps. induction fuel as [|fuel IH];
    intros currentUrl step.
  - cbn [Scenario.main_loop].
    destruct (Scenario.continues step) eqn:Hgo; cbn [negb].
    + apply exits_out_of_fuel.
    + apply exits_ret. left. now apply continues_rejects.
  - cbn [Scenario.main_loop].
    destruct (Scenario.continues step) eqn:Hgo; cbn [negb];
      [| apply exits_ret; left; now apply continues_rejects].
    apply (exits_bind_post (exit_reason steps currentUrl step)
             (fun url' => truthy_str url' = false ->
                          truthy_str currentUrl = false
                          /\ truthy_str (steps !! default "" step ≫= url)
                             = false)).
    { intros st a. apply url_in_force. }
    intros url' Hpost. destruct (truthy_str url') eqn:Hu; cbn [negb].
    + assert (Hnext : forall step',
                exits_with (exit_reason steps currentUrl step)
                           (Scenario.main_loop E sp fuel steps url' step')).
      { intros step'.
        apply (exits_weaken (exit_reason steps url' step'));
          [| intros st s; apply IH].
        intros s [H | [H | [_ [H _]]]]; [now left | right; now left |].
        congruence. }
      destruct (steps !! default "" step) as [so|] eqn:Hso.
      * apply exits_bind. intros _. apply exits_bind. intros _.
        apply exits_bind. intros tree. apply exits_bind. intros step'.
        apply exits_bind. intros _. apply Hnext.
      * destruct (inherited (default "" step)) eqn:Hinh.
        -- apply exits_bind. intros _. apply exits_bind. intros _.
           apply exits_bind. intros tree. apply exits_bind. intros step'.
           apply exits_bind. intros _. apply Hnext.
        -- apply exits_bind. intros _. apply exits_ret. right. left. auto.
    + apply exits_bind. intros _. apply exits_ret. right. right.
      destruct (Hpost eq_refl). auto.
Qed.

Lemma loop_exit_reasons_witness :
  fst (Scenario.main_loop Demo.env "" 1 Graphs.noUrl None (Some "_start")
         (Demo.start (Cases.goPage "[]")))
  = Ok (Some (Some "_start"))
  /\ exit_reason Graphs.noUrl None (Some "_start") (Some "_start").
Proof.
  split; [reflexivity |].
  exact (loop_exit_reasons Demo.env "" 1 Graphs.noUrl None (Some "_start")
           (Demo.start (Cases.goPage "[]")) (Some "_start") eq_refl).
Defined.

(** X18. The first step must declare a URL. When the step named ["_start"]
    is missing or declares none, the run ends in its first iteration: the
    console reads "No URL set!" and then the banner of an unknown final step,
    ["_start"]; nothing is asked of the model and the page is not touched. *)
Theorem missing_url_ends_the_run :
  forall (E : Env) (sp : string) (fuel : nat)
         (steps : gmap string (Step (list Assertion))) (st : state E),
    truthy_str (steps !! "_start" ≫= url) = false ->
    Scenario.main E sp (S fuel) steps st
    = (Ok (Scenario.Finished (Some "_start")),
       extend st [EvLog "No URL set!" [];
                  EvLog "Scenario failed. Unknown final step:" ["_start"]]).
Proof.
  intros E sp fuel steps st Hurl.
  unfold Scenario.main, try_catch. rewrite bind_run.
  cbn [Scenario.main_loop]. 
  change (Scenario.continues (Some "_start")) with true. cbn [negb].
  change (default "" (Some "_start")) with "_start".
  rewrite Hurl. rewrite bind_run. cbn [mret M_ret ret truthy_str negb].
  unfold Scenario.banner, mbind, M_bind, bind, log, emit, mret, M_ret, ret,
    extend.
  simpl. rewrite <- app_assoc. reflexivity.
Qed.

Lemma missing_url_ends_the_run_witness :
  Scenario.main Demo.env "" 1 Graphs.noUrl (Demo.start (Cases.goPage "[]"))
  = (Ok (Scenario.Finished (Some "_start")),
     extend (Demo.start (Cases.goPage "[]"))
       [EvLog "No URL set!" [];
        EvLog "Scenario failed. Unknown final step:" ["_start"]]).
Proof.
  exact (missing_url_ends_the_run Demo.env "" 0 Graphs.noUrl
           (Demo.start (Cases.goPage "[]")) eq_refl).
Defined.


(** X19. Once the scenario has been read, the entry point never rejects.
    Whatever is thrown inside the loop
    -- a failed exchange with the model, a second reply that does not parse,
    a rejected page call, the destructuring of a [click] effect -- is
    caught: the run ends [Crashed] exactly when the loop threw, and then the
    console gets the line "Error:" and no banner. *)
Theorem entry_point_catches_every_exception :
  forall (E : Env) (sp : string) (fuel : nat)
         (steps : gmap string (Step (list Assertion))) (st : state E),
    let loop := Scenario.main_loop E sp fuel steps None (Some "_start") st in
    let run := Scenario.main E sp fuel steps st in
    (forall e, fst run <> Throw e)
    /\ (fst run = Ok Scenario.Crashed <-> exists e, fst loop = Throw e)
    /\ (fst run = Ok Scenario.Crashed ->
        snd run = extend (snd loop) [EvLog "Error:" []]).
Proof.
  intros E sp fuel steps st loop run. subst loop run.
  unfold Scenario.main, try_catch. rewrite bind_run.
  destruct (Scenario.main_loop E sp fuel steps None (Some "_start") st)
    as [[[step|]|e] st1]; cbn [fst snd].
  - rewrite bind_run.
    assert (Hb : exists st2, Scenario.banner E step st1 = (Ok tt, st2)).
    { unfold Scenario.banner, log, emit.
      destruct (is_str step "_failed"); [eexists; reflexivity |].
      destruct (is_str step "_end"); eexists; reflexivity. }
    destruct Hb as [st2 ->]. cbn.
    split; [discriminate |].
    split; [split; [discriminate | intros [e [=]]] | discriminate].
  - cbn. split; [discriminate |].
    split; [split; [discriminate | intros [e [=]]] | discriminate].
  - cbn. split; [discriminate |].
    split; [split; [eauto | reflexivity] | reflexivity].
Qed.

(** X20. When the evaluation of a step's tests returns at all, the name it
    returns is decided by the tests alone: the step's [next] when every test
    passes against the plan, ["_failed"] as soon as one does not -- whatever
    the success effects did on the way. *)
Theorem verdict_follows_the_tests :
  forall (E : Env) (response : value) (tests : list Assertion)
         (step : Step (list Assertion)) (st : state E) (s : option string),
    fst (Scenario.evaluate E response tests step st) = Ok s ->
    s = if forallb (Scenario.passes response) tests then next step
        else Some "_failed".
Proof.
  intros E response tests step. induction tests as [|test rest IH];
    intros st s.
  - cbn. now intros [= <-].
  - cbn [Scenario.evaluate forallb]. unfold Scenario.passes at 1.
    destruct (Scenario.checkCondition response test); cbn [andb].
    + rewrite bind_run. cbn [log emit]. rewrite bind_run.
      destruct (runEffect E false (onSuccess test) _) as [[[]|e] st1];
        [apply IH | discriminate].
    + cbn. now intros [= <-].
Qed.

Lemma verdict_follows_the_tests_witness :
  Some "_failed"
  = if forallb (Scenario.passes (VArr []))
         [Effects.plainTest None None "first";
          Effects.plainTest (Some "responseIsEqual") (Some (VStr "[1]")) "second"]
    then next Cases.chattyStep else Some "_failed".
Proof.
  exact (verdict_follows_the_tests Demo.env (VArr [])
           [Effects.plainTest None None "first";
            Effects.plainTest (Some "responseIsEqual") (Some (VStr "[1]"))
                              "second"]
           Cases.chattyStep (Demo.start (Cases.goPage "[]"))
           (Some "_failed") eq_refl).
Defined.

(** X21. The loop of [src/server.js], started on some name with some URL
    in force, hands back a name for one of three reasons only: the name is
    falsy or ["_end"]; or [steps[name]] is [undefined] (no step bears the
    name and nothing of that name is inherited from [Object.prototype]); or
    it is the very name the loop was started on, no URL was in force at
    that point and its step declares none. ["_failed"] is not among the
    names that stop this loop: it hands back ["_failed"] only when no step
    bears that name, unless it was started on it. *)
Theorem server_loop_exit_reasons :
  forall (E : Env) (sp : string) (fuel : nat)
         (steps : gmap string (Step (option Assertion)))
         (currentUrl step : option string) (st : state E) (s : option string),
    fst (ServerEntry.main_loop E sp fuel steps currentUrl step st)
    = Ok (Some s) ->
    server_exit_reason steps currentUrl step s
    /\ (s = Some "_failed" -> step <> Some "_failed" ->
        steps !! "_failed" = None).
Proof.
  intros E sp fuel steps currentUrl step st s Hrun.
  assert (Hexit : server_exit_reason steps currentUrl step s).
  { revert currentUrl step st s Hrun. induction fuel as [|fuel IH];
      intros currentUrl step.
    - cbn [ServerEntry.main_loop].
      destruct (ServerEntry.continues step) eqn:Hgo; cbn [negb].
      + apply exits_out_of_fuel.
      + apply exits_ret. left. now apply server_continues_rejects.
    - cbn [ServerEntry.main_loop].
      destruct (ServerEntry.continues step) eqn:Hgo; cbn [negb];
        [| apply exits_ret; left; now apply server_continues_rejects].
      apply (exits_bind_post (server_exit_reason steps currentUrl step)
               (fun url' => truthy_str url' = false ->
                            truthy_str currentUrl = false
                            /\ truthy_str (steps !! default "" step ≫= url)
                               = false)).
      { intros st a. apply url_in_force. }
      intros url' Hpost. destruct (truthy_str url') eqn:Hu; cbn [negb].
      + assert (Hnext : forall step',
                  exits_with (server_exit_reason steps currentUrl step)
                             (ServerEntry.main_loop E sp fuel steps url' step')).
        { intros step'.
          apply (exits_weaken (server_exit_reason steps url' step'));
            [| intros st s; apply IH].
          intros s [H | [H | [_ [H _]]]]; [now left | right; now left |].
          congruence. }
        apply exits_bind. intros _. apply exits_bind. intros _.
        destruct (steps !! default "" step) as [so|] eqn:Hso.
        * apply exits_bind. intros _. apply exits_bind. intros _.
          apply exits_bind. intros _.
          apply exits_bind. intros tree. apply exits_bind. intros step'.
          apply Hnext.
        * destruct (inherited (default "" step)) eqn:Hinh.
          -- apply exits_bind. intros _. apply exits_bind. intros _.
             apply exits_bind. intros _.
             apply exits_bind. intros tree. apply exits_bind. intros step'.
             apply Hnext.
          -- apply exits_bind. intros _. apply exits_ret. right. left. auto.
      + apply exits_bind. intros _. apply exits_ret. right. right.
        destruct (Hpost eq_refl). auto. }
  split; [exact Hexit |].
  intros -> Hstart.
  destruct Hexit as [[H | H] | [[H _] | [H _]]];
    [discriminate | discriminate | exact H | congruence].
Qed.

Lemma server_loop_exit_reasons_witness :
  fst (ServerEntry.main_loop Demo.env "" 2 Graphs.single None (Some "_start")
         (Demo.start (Cases.goPage "[1]")))
  = Ok (Some (Some "_failed"))
  /\ server_exit_reason Graphs.single None (Some "_start") (Some "_failed")
  /\ Graphs.single !! "_failed" = None.
Proof.
  split; [reflexivity |].
  pose (H := server_loop_exit_reasons Demo.env "" 2 Graphs.single None
               (Some "_start") (Demo.start (Cases.goPage "[1]"))
               (Some "_failed") eq_refl).
  split; [exact (proj1 H) |].
  apply (proj2 H); [reflexivity | discriminate].
Defined.

(** ** The single-assertion driver and the earliest driver *)

Lemma off_page_events (tr : list event) :
  Forall off_page tr -> page_events tr = [].
Proof.
  induction 1 as [|e tr He _ IH]; [reflexivity |].
  destruct e; simpl in *; try contradiction; exact IH.
Qed.

Lemma askPlan_off_page (E : Env) (sp sro : string) (instr : option string) :
  appends off_page (askPlan E sp sro instr).
Proof.
  unfold askPlan, setup, send, parse, set_messages, get_messages.
  appends_auto; intros st; exists []; simpl; now rewrite app_nil_r.
Qed.

(** X22. In [src/server.js] the declared condition alone decides the step,
    before anything is done: when it does not hold against the parsed reply
    the step returns ["_failed"] and no call has been made to the page --
    no element resolved, nothing clicked or typed; when it holds, the only
    name the step can return is its [next]. *)
Theorem server_condition_decides_first :
  forall (E : Env) (sp sro : string) (step : Step (option Assertion))
         (name : option string) (st st1 : state E) (response : value),
    askPlan E sp sro (instruction step) st = (Ok response, st1) ->
    let run := Server.runScenario E sp sro step name st in
    if Server.conditionHolds response (success step)
    then forall s, fst run = Ok s -> s = next step
    else fst run = Ok (Some "_failed")
         /\ page_events (trace (snd run)) = page_events (trace st).
Proof.
  intros E sp sro step name st st1 response Hask run. subst run.
  unfold Server.runScenario. rewrite bind_run, Hask.
  destruct (Server.conditionHolds response (success step)).
  - intros s. rewrite bind_run. cbn [log emit]. rewrite bind_run.
    unfold lift at 1. destruct (iterate response) as [plan|e]; [| discriminate].
    rewrite bind_run.
    destruct (Server.performActions E plan _) as [[[]|e] st2]; [| discriminate].
    rewrite bind_run.
    destruct (runEffect E true _ st2) as [[[]|e] st3]; [| discriminate].
    cbn. now intros [= <-].
  - split; [reflexivity |].
    destruct (askPlan_off_page E sp sro (instruction step) st) as [tr [Htr Hoff]].
    rewrite Hask in Htr. cbn [snd] in Htr.
    unfold mbind, M_bind, bind, log, emit, mret, M_ret, ret. cbn [snd trace].
    rewrite Htr, !page_events_app, (off_page_events tr Hoff). cbn.
    now rewrite !app_nil_r.
Qed.

Lemma server_condition_decides_first_witness :
  let run := Server.runScenario Demo.env "" ""
               (Cases.stepWith (Some Cases.expectsEmptyPlan)) (Some "_start")
               (Demo.start (Cases.goPage "[1]")) in
  fst run = Ok (Some "_failed")
  /\ page_events (trace (snd run)) = [].
Proof.
  exact (server_condition_decides_first Demo.env "" ""
           (Cases.stepWith (Some Cases.expectsEmptyPlan)) (Some "_start")
           (Demo.start (Cases.goPage "[1]"))
           (snd (askPlan Demo.env "" "" (Some "press go")
                   (Demo.start (Cases.goPage "[1]"))))
           (VArr [VNum "1"]) eq_refl).
Defined.

Lemma last_snoc_message (ms : list message) (m : message) :
  last (ms ++ [m]) = Some m.
Proof. apply last_snoc. Qed.

Lemma earliest_rest_in_step (E : Env) (response : string)
    (step : Step (option Assertion)) :
  appends in_step
    (log E "Response:" [response];;
     if EarliestDriver.conditionHolds response (success step) then
       log E "Step succeeded." [];;
       match success step ≫= onSuccess with
       | None => throw E TypeError
       | Some eff => runEffect E true (Some eff);; mret (next step)
       end
     else log E "Step failed." [];; mret (Some "_failed")).
Proof.
  apply appends_bind; [apply appends_log; exact I | intros _].
  destruct (EarliestDriver.conditionHolds response (success step)).
  - apply appends_bind; [apply appends_log; exact I | intros _].
    destruct (success step ≫= onSuccess).
    + apply appends_bind; [apply runEffect_in_step | intros _].
      apply appends_ret.
    + apply appends_throw.
  - appends_auto.
Qed.

Lemma earliest_rest_keeps_history (E : Env) (response : string)
    (step : Step (option Assertion)) :
  keeps_history
    (log E "Response:" [response];;
     if EarliestDriver.conditionHolds response (success step) then
       log E "Step succeeded." [];;
       match success step ≫= onSuccess with
       | None => throw E TypeError
       | Some eff => runEffect E true (Some eff);; mret (next step)
       end
     else log E "Step failed." [];; mret (Some "_failed")).
Proof.
  apply keeps_bind; [apply keeps_log | intros _].
  destruct (EarliestDriver.conditionHolds response (success step)).
  - apply keeps_bind; [apply keeps_log | intros _].
    destruct (success step ≫= onSuccess).
    + apply keeps_bind; [apply runEffect_keeps_history | intros _].
      apply keeps_ret.
    + apply keeps_throw.
  - apply keeps_bind; [apply keeps_log | intros _]. apply keeps_ret.
Qed.

(** X23. A step of the earliest driver is one exchange with the model and
    no parsing: whatever the outcome, exactly one message is sent -- the
    prompt built from the projected page and the instruction -- nothing is
    handed to [JSON.parse], and the conversation is never reset: the history
    the step found is a prefix of the one it leaves, longer by the prompt
    and, when the model answered, by its reply. *)
Theorem earliest_step_is_one_exchange :
  forall (E : Env) (sro : string) (step : Step (option Assertion))
         (st : state E),
    let run := EarliestDriver.runScenario E sro step st in
    let asked := Message "user"
                   (EarliestDriver.prompt sro (instruction step)) in
    (exists tr, trace (snd run) = trace st ++ tr
                /\ parse_attempts tr = []
                /\ sent_messages tr
                   = [EarliestDriver.prompt sro (instruction step)])
    /\ (messages (snd run) = messages st ++ [asked]
        \/ exists reply, messages (snd run) = messages st ++ [asked; reply]).
Proof.
  intros E sro step st run asked. subst run asked.
  unfold EarliestDriver.runScenario. rewrite bind_run, send_run. cbv zeta.
  destruct (chat E _ (world st)) as [[reply|] w1].
  - match goal with
    | |- context [ (log E "Response:" _ ≫= _) ?s ] => set (st1 := s)
    end.
    destruct (earliest_rest_in_step E (msg_content reply) step st1)
      as [tr [Htr Hoff]].
    pose proof (earliest_rest_keeps_history E (msg_content reply) step st1)
      as Hkeep.
    destruct (in_step_no_parse tr Hoff) as [Hp Hs].
    split.
    + eexists. rewrite Htr. subst st1. cbn [trace]. rewrite <- app_assoc.
      split; [reflexivity |].
      unfold parse_attempts, sent_messages in *.
      rewrite !omap_app, Hp, Hs, !app_nil_r. cbn [omap list_omap].
      rewrite last_snoc_message.
      split; reflexivity.
    + right. exists reply. rewrite Hkeep. subst st1. cbn [messages].
      now rewrite <- app_assoc.
  - cbn [fst snd trace messages]. split.
    + eexists. split; [reflexivity |].
      unfold parse_attempts, sent_messages. cbn [omap list_omap].
      rewrite last_snoc_message. split; reflexivity.
    + now left.
Qed.

(** X24. In the earliest driver a step needs a success effect to advance:
    [successObject?.onSuccess] is destructured with no fallback. A step whose
    success object declares no [onSuccess] never returns its [nextStep] --
    it returns ["_failed"] or throws -- and it never touches the page; a
    step with no success object at all cannot even fail: it always
    throws. *)
Theorem earliest_step_needs_onSuccess :
  forall (E : Env) (sro : string) (step : Step (option Assertion))
         (st : state E),
    success step ≫= onSuccess = None ->
    let run := EarliestDriver.runScenario E sro step st in
    (forall s, fst run = Ok s -> s = Some "_failed")
    /\ page_events (trace (snd run)) = page_events (trace st)
    /\ (success step = None -> exists e, fst run = Throw e).
Proof.
  intros E sro step st Hnone run. subst run.
  unfold EarliestDriver.runScenario. rewrite bind_run, send_run. cbv zeta.
  rewrite Hnone.
  destruct (chat E _ (world st)) as [[reply|] w1].
  - unfold mbind, M_bind, bind, log, emit, throw, mret, M_ret, ret.
    destruct (EarliestDriver.conditionHolds (msg_content reply) (success step))
      eqn:Hcond; cbn [fst snd trace].
    + split; [discriminate |].
      split; [rewrite !page_events_app; cbn; now rewrite !app_nil_r |].
      eauto.
    + split; [now intros s [= <-] |].
      split; [rewrite !page_events_app; cbn; now rewrite !app_nil_r |].
      intros Hs. rewrite Hs in Hcond. discriminate.
  - cbn [fst snd trace]. split; [discriminate |].
    split; [rewrite !page_events_app; cbn; now rewrite !app_nil_r |].
    eauto.
Qed.

Lemma earliest_step_needs_onSuccess_witness :
  let run := EarliestDriver.runScenario Demo.env ""
               (Cases.stepWith None) (Demo.start (Cases.goPage "ok")) in
  (forall s, fst run = Ok s -> s = Some "_failed")
  /\ page_events (trace (snd run)) = []
  /\ (@None Assertion = None -> exists e, fst run = Throw e).
Proof.
  exact (earliest_step_needs_onSuccess Demo.env "" (Cases.stepWith None)
           (Demo.start (Cases.goPage "ok")) eq_refl).
Defined.

Lemma earliest_setup_run (E : Env) (prompt : string) (st : state E) :
  Earliest.setup E prompt st
  = let history := messages st ++ [Message "system" prompt] in
    (match fst (chat E history (world st)) with
     | Some _ => Ok tt
     | None => Throw RemoteError
     end,
     {| world := snd (chat E history (world st));
        messages := history;
        trace := trace st ++ [EvChat history] |}).
Proof.
  unfold Earliest.setup, mbind, M_bind, bind, set_messages, get_messages,
    emit, call, mret, M_ret, ret. simpl.
  destruct (chat E _ (world st)) as [[reply|] w']; reflexivity.
Qed.

Lemma guarded_run_returns (E : Env) (m : M E Scenario.run_end) (st : state E) :
  exists r, fst (try_catch E m (log E "Error:" [];; mret Scenario.Crashed) st)
            = Ok r.
Proof.
  unfold try_catch. destruct (m st) as [[r|e] st1]; eexists; reflexivity.
Qed.

Lemma call_unit_run (E : Env) (f : World E -> bool * World E)
    (st : state E) :
  call_unit E f st
  = (if fst (f (world st)) then Ok tt else Throw PageError,
     {| world := snd (f (world st)); messages := messages st;
        trace := trace st |}).
Proof.
  unfold call_unit, call. destruct (f (world st)) as [[] w]; reflexivity.
Qed.

(** X25. The earliest entry point primes the model, launches the browser
    and opens a page before its [try]: a failure of any of the three is not
    caught and the run rejects, the priming first (nothing is launched
    then), the launch next, the page last. Once the three have succeeded,
    the entry point returns whatever happens after: in the navigation, in
    the reading of the scenario, in the loop. *)
Theorem earliest_priming_is_not_guarded :
  forall (E : Env) (fuel : nat)
         (scenario : option (gmap string (Step (option Assertion))))
         (st : state E),
    let primed :=
      chat E (messages st ++ [Message "system" EarliestDriver.setupPrompt])
           (world st) in
    let launched := launch E (snd primed) in
    let opened := newPage E (snd launched) in
    let run := EarliestDriver.main E fuel scenario st in
    match fst primed with
    | None => fst run = Throw RemoteError /\ world (snd run) = snd primed
    | Some _ =>
        if fst launched then
          if fst opened then exists r, fst run = Ok r
          else fst run = Throw PageError /\ world (snd run) = snd opened
        else fst run = Throw PageError /\ world (snd run) = snd launched
    end.
Proof.
  intros E fuel scenario st primed launched opened run.
  subst primed launched opened run.
  unfold EarliestDriver.main. rewrite bind_run, earliest_setup_run. cbv zeta.
  destruct (chat E _ (world st)) as [[reply|] w0]; cbn [fst snd];
    [| split; reflexivity].
  rewrite bind_run, call_unit_run. cbn [world].
  destruct (launch E w0) as [[] w1]; cbn [fst snd]; [| split; reflexivity].
  rewrite bind_run, call_unit_run. cbn [world].
  destruct (newPage E w1) as [[] w2]; cbn [fst snd]; [| split; reflexivity].
  apply guarded_run_returns.
Qed.

(** ** The action loop, from one driver to the next *)

Section Agree.

Context {E : Env}.





















End Agree.

